(** * The admission plugin registry and chain executor

    A shallow embedding of [k8s.io/apiserver/pkg/admission]
    ([plugins.go], [chain.go] and the contracts of [interfaces.go]) as
    vendored by the pizza-apiserver, together with the properties claimed
    for it.

    Go code is translated function by function.  Code that calls out to
    plugins, initializers, the configuration provider or the enablement
    predicate runs in a state monad over a [World]: the memory these
    collaborators may change, plus a ghost record of every call made to
    them (and of every [klog] line), which is what lets the statements
    speak about "was invoked", "in order" and "never invoked".  The one
    panic the package can raise by itself, in the nil test on a
    configuration reader, is an outcome of the functions it goes
    through. *)

From Stdlib Require Import DecimalString.
From stdpp Require Import gmap strings list sorting.

Set Default Proof Using "Type".

(** ** A small state monad *)

Definition State (St A : Type) : Type := St → A * St.

Definition ret {St A} (a : A) : State St A := λ s, (a, s).

Definition bind {St A B} (m : State St A) (k : A → State St B) : State St B :=
  λ s, let (a, s') := m s in k a s'.

Notation "x <- m ;; k" := (bind m (λ x, k))
  (at level 100, m at next level, right associativity).
Notation "m ;;; k" := (bind m (λ _, k))
  (at level 100, right associativity).

(** ** Panics

    A Go call returns or panics.  Code that may panic gives an
    [Outcome]; a panic ends the function and, as nothing in this package
    recovers, every caller up the stack: what follows the call runs only
    after a normal return. *)
Inductive Outcome (A : Type) : Type :=
  | Normal (a : A)
  | Panic (msg : string).

Global Arguments Normal {A} a.
Global Arguments Panic {A} msg.

Definition bindNormal {St A B} (m : State St (Outcome A))
    (k : A → State St (Outcome B)) : State St (Outcome B) :=
  λ s, let (res, s') := m s in
       match res with
       | Normal a => k a s'
       | Panic msg => (Panic msg, s')
       end.

Notation "x <~ m ;; k" := (bindNormal m (λ x, k))
  (at level 100, m at next level, right associativity).

(** What a normal return and a panic become under [f]: a view of a
    result that keeps panics apart. *)
Definition mapOutcome {A B} (f : A → B) (res : Outcome A) : Outcome B :=
  match res with
  | Normal a => Normal (f a)
  | Panic msg => Panic msg
  end.

(** ** Go values: errors, byte slices, readers *)

(** An [error] is nil or a value; [io.EOF] is told apart by identity,
    every other error by its message ([fmt.Errorf] builds an error from
    its formatted text, and [%v] prints an error's message). *)
Inductive errorValue : Type :=
  | io_EOF
  | errorString (msg : string).

Definition error : Type := option errorValue.

Definition Error (e : errorValue) : string :=
  match e with
  | io_EOF => "EOF"
  | errorString msg => msg
  end.

Definition byte : Type := Byte.byte.

(** A [[]byte]: the address of its backing array and its length. *)
Record slice : Type := Slice { arr : nat; len : nat }.

(** The objects behind an [io.Reader].  A [Source] is any stream: the
    bytes it still has to deliver, and the error with which it ends
    ([io_EOF] for a clean end).  A [Buffer] is a [bytes.Buffer]: its
    [buf] slice and its read offset. *)
Inductive readerObj : Type :=
  | Source (data : list byte) (final : errorValue)
  | Buffer (buf : slice) (off : nat).

(** The kinds of [reflect.Kind] whose values cannot be nil: all but
    [Chan], [Func], [Interface], [Map], [Ptr], [Slice] and
    [UnsafePointer] (and [Invalid], the kind of no value). *)
Inductive valueKind : Type :=
  | reflect_Bool
  | reflect_Int | reflect_Int8 | reflect_Int16 | reflect_Int32 | reflect_Int64
  | reflect_Uint | reflect_Uint8 | reflect_Uint16 | reflect_Uint32
  | reflect_Uint64 | reflect_Uintptr
  | reflect_Float32 | reflect_Float64
  | reflect_Complex64 | reflect_Complex128
  | reflect_Array
  | reflect_String
  | reflect_Struct.

(** [Kind.String]. *)
Definition Kind_String (kind : valueKind) : string :=
  match kind with
  | reflect_Bool => "bool"
  | reflect_Int => "int"
  | reflect_Int8 => "int8"
  | reflect_Int16 => "int16"
  | reflect_Int32 => "int32"
  | reflect_Int64 => "int64"
  | reflect_Uint => "uint"
  | reflect_Uint8 => "uint8"
  | reflect_Uint16 => "uint16"
  | reflect_Uint32 => "uint32"
  | reflect_Uint64 => "uint64"
  | reflect_Uintptr => "uintptr"
  | reflect_Float32 => "float32"
  | reflect_Float64 => "float64"
  | reflect_Complex64 => "complex64"
  | reflect_Complex128 => "complex128"
  | reflect_Array => "array"
  | reflect_String => "string"
  | reflect_Struct => "struct"
  end.

(** A value of interface type [io.Reader], by what the interface
    holds.  [nilReader] is the nil interface.  [nilPtrReader] holds a nil
    value of a kind that has nil: a nil pointer, which is what
    [reflect.ValueOf(_).IsNil()] is there to catch.  [ptrReader r] holds
    a non-nil value of such a kind, a pointer to the reader object [r].
    [valueReader kind r] holds a value of a kind that has no nil: a
    struct with a [Read] method on the value, as [ioutil.NopCloser]
    returns, or an array or a basic type with one; its [Read] works on
    the reader object [r]. *)
Inductive ioReader : Type :=
  | nilReader
  | nilPtrReader
  | ptrReader (r : nat)
  | valueReader (kind : valueKind) (r : nat).

(** The value with which [reflect.Value.IsNil] panics when the value's
    kind has no nil: a [*reflect.ValueError], printed. *)
Definition reflect_IsNil_panic (kind : valueKind) : string :=
  "reflect: call of reflect.Value.IsNil on " +:+ Kind_String kind +:+ " Value".

Section admission.

(** The state owned by plugins and the other collaborators. *)
Context {S : Type}.

(** The memory: collaborators' state, reader objects, backing arrays.
    Two buffers may name the same backing array. *)
Record Mem : Type := MkMem {
  user : S;
  objs : list readerObj;
  arrays : list (list byte)
}.

(** The contents of a slice (empty for an address outside the heap,
    which Go cannot produce). *)
Definition bytesOf (m : Mem) (b : slice) : list byte :=
  take (len b) (default [] (arrays m !! arr b)).

Definition setObj (r : nat) (o : readerObj) (m : Mem) : Mem :=
  MkMem (user m) (<[r := o]> (objs m)) (arrays m).

(** [r.Read(p)] with [len(p) = n]: the bytes copied into [p] and the
    error.  For a buffer this is [bytes.Buffer.Read]: an empty buffer is
    reset and reports [io.EOF] (nil when [len(p) = 0]); otherwise the
    bytes from [off] on are copied and [off] advances.  The backing array
    is never written. *)
Definition Read (r : nat) (n : nat) : State Mem (list byte * error) :=
  λ m,
    match objs m !! r with
    | Some (Source data final) =>
        if decide (n = 0) then (([], None), m)
        else match data with
             | [] => (([], Some final), m)
             | _ => ((take n data, None), setObj r (Source (drop n data) final) m)
             end
    | Some (Buffer b off) =>
        if decide (len b ≤ off) then
          let m' := setObj r (Buffer (Slice (arr b) 0) 0) m in
          if decide (n = 0) then (([], None), m') else (([], Some io_EOF), m')
        else
          let p := take n (drop off (bytesOf m b)) in
          ((p, None), setObj r (Buffer b (off + length p)) m)
    | None => (([], Some io_EOF), m)
    end.

(** The bytes a reader has yet to deliver, and how many they are. *)
Definition toRead (r : nat) (m : Mem) : list byte :=
  match objs m !! r with
  | Some (Source data _) => data
  | Some (Buffer b off) => drop off (bytesOf m b)
  | None => []
  end.

Definition remaining (r : nat) (m : Mem) : nat := length (toRead r m).

Definition MinRead : nat := 512.

(** The loop of [ioutil.ReadAll]: read chunk after chunk until an error;
    [io.EOF] is a clean end.  [fuel] bounds the iterations. *)
Fixpoint ReadAll_loop (fuel : nat) (r : nat) (acc : list byte)
    : State Mem (list byte * error) :=
  match fuel with
  | 0 => ret (acc, None)
  | Datatypes.S fuel' =>
      res <- Read r MinRead ;;
      let '(p, err) := res in
      match err with
      | Some io_EOF => ret (acc ++ p, None)
      | Some e => ret (acc ++ p, Some e)
      | None => ReadAll_loop fuel' r (acc ++ p)
      end
  end.

(** Allocation of a backing array holding [bs]. *)
Definition newArray (bs : list byte) : State Mem slice :=
  λ m, (Slice (length (arrays m)) (length bs),
        MkMem (user m) (objs m) (arrays m ++ [bs])).

(** [ioutil.ReadAll(r)]: the bytes read, as a fresh slice, and the
    error. Every chunk has at least one byte, so [remaining + 1]
    iterations reach the end of the stream. *)
Definition ReadAll (r : nat) : State Mem (slice * error) :=
  λ m,
    let '((bs, err), m1) := ReadAll_loop (Datatypes.S (remaining r m)) r [] m in
    let '(b, m2) := newArray bs m1 in
    ((b, err), m2).

(** [bytes.NewBuffer(buf)]: a new buffer object that takes [buf] itself,
    not a copy, as its contents. *)
Definition NewBuffer (b : slice) : State Mem ioReader :=
  λ m, (ptrReader (length (objs m)),
        MkMem (user m) (objs m ++ [Buffer b 0]) (arrays m)).

(** [splitStream]: plugins.go, lines 116-127.  The test of line 117 is
    [config == nil || reflect.ValueOf(config).IsNil()]: the first half
    answers for the nil interface; for every other reader the second
    half runs, and it answers only for values of a kind that has nil.
    For a value of any other kind [IsNil] panics, before anything is
    read. *)
Definition splitStream (config : ioReader)
    : State Mem (Outcome (ioReader * ioReader * error)) :=
  match config with
  | nilReader => ret (Normal (nilReader, nilReader, None))
  | nilPtrReader => ret (Normal (nilReader, nilReader, None))
  | valueReader kind _ => ret (Panic (reflect_IsNil_panic kind))
  | ptrReader r =>
      res <- ReadAll r ;;
      let '(configBytes, err) := res in
      match err with
      | Some e => ret (Normal (nilReader, nilReader, Some e))
      | None =>
          config1 <- NewBuffer configBytes ;;
          config2 <- NewBuffer configBytes ;;
          ret (Normal (config1, config2, None))
      end
  end.

(** *** Vocabulary for statements about readers *)

(** A buffer is well formed when its slice fits its backing array, as
    every Go slice does. *)
Definition okReader (r : nat) (m : Mem) : Prop :=
  match objs m !! r with
  | Some (Buffer b _) => len b ≤ length (default [] (arrays m !! arr b))
  | _ => True
  end.

(** The error [ioutil.ReadAll] reports for a reader: that of a stream
    ending in failure, and none otherwise. *)
Definition finalErr (r : nat) (m : Mem) : error :=
  match objs m !! r with
  | Some (Source _ (errorString msg)) => Some (errorString msg)
  | _ => None
  end.

(** [m'] differs from [m] at most in the reader object at [r]. *)
Definition sameExcept (r : nat) (m m' : Mem) : Prop :=
  user m' = user m ∧ arrays m' = arrays m ∧
  length (objs m') = length (objs m) ∧
  ∀ r', r' ≠ r → objs m' !! r' = objs m !! r'.

(** A schedule of [Read] calls, each on some reader with some length of
    [p], run in order; the result lists what each call delivered. *)
Fixpoint runReads (sched : list (nat * nat)) : State Mem (list (nat * list byte)) :=
  match sched with
  | [] => ret []
  | (r, n) :: rest =>
      res <- Read r n ;;
      out <- runReads rest ;;
      ret ((r, res.1) :: out)
  end.

(** All the bytes reader [r] delivered in such a run, in order. *)
Definition deliveredBy (r : nat) (out : list (nat * list byte)) : list byte :=
  concat (filter (λ x, x.1 = r) out).*2.

(** ** The contracts of interfaces.go *)

(** [Operation] is a string type with four named constants. *)
Definition Operation : Type := string.
Definition Create : Operation := "CREATE".
Definition Update : Operation := "UPDATE".
Definition Delete : Operation := "DELETE".
Definition Connect : Operation := "CONNECT".

(** [Attributes] and [ObjectInterfaces] are interfaces implemented by the
    hosting server; the chain only asks a request for its operation. *)
Context {Attributes ObjectInterfaces : Type}.
Context (GetOperation : Attributes → Operation).

(** A non-nil value of type [Interface].  [Handles] is a method of every
    plugin; each further field is the outcome of the type assertion
    [plugin.(MutationInterface)], [plugin.(ValidationInterface)],
    [plugin.(InitializationValidator)]: the method when the plugin
    implements the capability, [None] when it does not.  [Handles] is a
    pure predicate on the operation; the other methods may read and
    change the memory. *)
Record Interface : Type := MkInterface {
  Handles : Operation → bool;
  MutationInterface : option (Attributes → ObjectInterfaces → State Mem error);
  ValidationInterface : option (Attributes → ObjectInterfaces → State Mem error);
  InitializationValidator : option (State Mem error)
}.

(** [Factory], [PluginInitializer], [ConfigProvider], [Decorator] and the
    type of [PluginEnabledFn].  A nil [Interface] is [None]. *)
Definition Factory : Type := ioReader → State Mem (option Interface * error).
Definition PluginInitializer : Type := option Interface → State Mem unit.
Definition PluginInitializers : Type := list PluginInitializer.
Definition ConfigProvider : Type := string → State Mem (ioReader * error).
Definition Decorator : Type := option (Interface → string → Interface).
Definition PluginEnabledFunc : Type := string → ioReader → State Mem bool.

(** ** Calls to collaborators and the ghost trace *)

(** One entry per call made to a collaborator, with what it returned,
    and one per [klog] line.  Chain members are named by their position
    in the chain, initializers by their position in the set. *)
Inductive Event : Type :=
  | ConfigForCall (pluginName : string) (res : ioReader * error)
  | PluginEnabledFnCall (name : string) (config : ioReader) (res : bool)
  | FactoryCall (name : string) (config : ioReader) (res : option Interface * error)
  | InitializeCall (k : nat) (plugin : option Interface)
  | ValidateInitializationCall (plugin : Interface) (res : error)
  | AdmitCall (i : nat) (res : error)
  | ValidateCall (i : nat) (res : error)
  | klogInfo (msg : string).

Record World : Type := MkWorld { mem : Mem; trace : list Event }.

(** Run a collaborator on the memory and record the call. *)
Definition call {A} (ev : A → Event) (f : State Mem A) : State World A :=
  λ w, let (a, m') := f (mem w) in (a, MkWorld m' (trace w ++ [ev a])).

(** Run code of this package that only touches the memory. *)
Definition lift {A} (f : State Mem A) : State World A :=
  λ w, let (a, m') := f (mem w) in (a, MkWorld m' (trace w)).

Definition klog_Info (msg : string) : State World unit :=
  λ w, (tt, MkWorld (mem w) (trace w ++ [klogInfo msg])).

(** ** chain.go *)

Definition chainAdmissionHandler : Type := list Interface.

Definition NewChainHandler (handlers : list Interface) : chainAdmissionHandler :=
  handlers.

(** The loop of [chainAdmissionHandler.Admit] (chain.go, lines 30-43),
    from position [i] of the chain on. *)
Fixpoint Admit_from (i : nat) (admissionHandler : chainAdmissionHandler)
    (a : Attributes) (o : ObjectInterfaces) : State World error :=
  match admissionHandler with
  | [] => ret None
  | handler :: rest =>
      if negb (Handles handler (GetOperation a)) then
        Admit_from (Datatypes.S i) rest a o
      else
        match MutationInterface handler with
        | Some mutator_Admit =>
            err <- call (AdmitCall i) (mutator_Admit a o) ;;
            match err with
            | Some e => ret (Some e)
            | None => Admit_from (Datatypes.S i) rest a o
            end
        | None => Admit_from (Datatypes.S i) rest a o
        end
  end.

Definition chainAdmissionHandler_Admit (admissionHandler : chainAdmissionHandler)
    (a : Attributes) (o : ObjectInterfaces) : State World error :=
  Admit_from 0 admissionHandler a o.

(** The loop of [chainAdmissionHandler.Validate] (chain.go, lines 46-61). *)
Fixpoint Validate_from (i : nat) (admissionHandler : chainAdmissionHandler)
    (a : Attributes) (o : ObjectInterfaces) : State World error :=
  match admissionHandler with
  | [] => ret None
  | handler :: rest =>
      if negb (Handles handler (GetOperation a)) then
        Validate_from (Datatypes.S i) rest a o
      else
        match ValidationInterface handler with
        | Some validator_Validate =>
            err <- call (ValidateCall i) (validator_Validate a o) ;;
            match err with
            | Some e => ret (Some e)
            | None => Validate_from (Datatypes.S i) rest a o
            end
        | None => Validate_from (Datatypes.S i) rest a o
        end
  end.

Definition chainAdmissionHandler_Validate (admissionHandler : chainAdmissionHandler)
    (a : Attributes) (o : ObjectInterfaces) : State World error :=
  Validate_from 0 admissionHandler a o.

(** [chainAdmissionHandler.Handles] (chain.go, lines 65-72). *)
Fixpoint chainAdmissionHandler_Handles (admissionHandler : chainAdmissionHandler)
    (operation : Operation) : bool :=
  match admissionHandler with
  | [] => false
  | handler :: rest =>
      if Handles handler operation then true
      else chainAdmissionHandler_Handles rest operation
  end.

(** *** Vocabulary for statements about a pass over the chain *)

Definition Method : Type := Attributes → ObjectInterfaces → State Mem error.

(** Both loops of chain.go follow one scheme: they differ in the
    capability [cap] they assert and in the call [ev] they make. *)
Fixpoint chain_from (cap : Interface → option Method) (ev : nat → error → Event)
    (i : nat) (admissionHandler : chainAdmissionHandler)
    (a : Attributes) (o : ObjectInterfaces) : State World error :=
  match admissionHandler with
  | [] => ret None
  | handler :: rest =>
      if negb (Handles handler (GetOperation a)) then
        chain_from cap ev (Datatypes.S i) rest a o
      else
        match cap handler with
        | Some method =>
            err <- call (ev i) (method a o) ;;
            match err with
            | Some e => ret (Some e)
            | None => chain_from cap ev (Datatypes.S i) rest a o
            end
        | None => chain_from cap ev (Datatypes.S i) rest a o
        end
  end.

(** Position [i] of the chain holds a member that handles the operation
    and implements the capability: the members a pass is to invoke. *)
Definition candidate (cap : Interface → option Method) (operation : Operation)
    (chain : list Interface) (i : nat) : Prop :=
  ∃ handler, chain !! i = Some handler ∧
    Handles handler operation = true ∧ is_Some (cap handler).

(** Invoking the members at the given positions one after the other on
    the memory, with no early exit: the errors they return. *)
Fixpoint replay (cap : Interface → option Method) (chain : list Interface)
    (a : Attributes) (o : ObjectInterfaces) (positions : list nat)
    : State Mem (list error) :=
  match positions with
  | [] => ret []
  | i :: rest =>
      match chain !! i ≫= cap with
      | Some method =>
          err <- method a o ;;
          errs <- replay cap chain a o rest ;;
          ret (err :: errs)
      | None => replay cap chain a o rest
      end
  end.

(** What a fail-fast pass over the chain must have done, given the calls
    it made (position and returned error, in the order made), the error
    [err] it returned and the worlds before and after. *)
Definition failFastPass (cap : Interface → option Method)
    (ev : nat → error → Event) (chain : list Interface)
    (a : Attributes) (o : ObjectInterfaces) (first : nat)
    (calls : list (nat * error)) (err : error) (w w' : World) : Prop :=
  trace w' = trace w ++ map (λ c, ev c.1 c.2) calls ∧
  (calls.*2, mem w') = replay cap chain a o calls.*1 (mem w) ∧
  StronglySorted lt calls.*1 ∧
  (∀ i, i ∈ calls.*1 → first ≤ i ∧ candidate cap (GetOperation a) chain i) ∧
  match err with
  | None =>
      Forall (λ c, c.2 = None) calls ∧
      ∀ i, first ≤ i → candidate cap (GetOperation a) chain i → i ∈ calls.*1
  | Some e =>
      ∃ calls0 i,
        calls = calls0 ++ [(i, Some e)] ∧
        Forall (λ c, c.2 = None) calls0 ∧
        ∀ j, first ≤ j → j < i →
             candidate cap (GetOperation a) chain j → j ∈ calls0.*1
  end.

(** ** plugins.go *)

(** The [fmt] verbs used by the package: [%q] is [strconv.Quote], code of
    the Go library, taken as given; [%d] prints a length in decimal;
    [%s] and [%v] print a string and an error's message as they are. *)
Context (Quote : string → string).

Definition fmt_d (n : nat) : string := NilZero.string_of_uint (Nat.to_uint n).

Definition strings_Join (elems : list string) (sep : string) : string :=
  String.concat sep elems.

(** [Plugins]: the registry is a Go map, nil until the first
    registration.  The mutex orders concurrent callers; the functions
    below are what one caller does while holding it. *)
Record Plugins : Type := MkPlugins {
  registry : option (gmap string Factory)
}.

Definition NewPlugins : Plugins := MkPlugins None.

(** Indexing a Go map: a nil map has no entries. *)
Definition registry_lookup (ps : Plugins) (name : string) : option Factory :=
  match registry ps with
  | Some reg => reg !! name
  | None => None
  end.

(** [for k := range ps.registry]: the keys in the order the map yields
    them, which Go leaves unspecified. *)
Definition rangeKeys (ps : Plugins) : list string :=
  match registry ps with
  | Some reg => (map_to_list reg).*1
  | None => []
  end.

(** [sort.Strings]: ascending by Go's string comparison, which is
    bytewise lexicographic. *)
Definition sort_Strings (keys : list string) : list string :=
  merge_sort String.le keys.

(** [Plugins.Registered] (lines 61-70). *)
Definition Registered (ps : Plugins) : list string :=
  sort_Strings (rangeKeys ps).

(** [klog.Fatalf] logs and exits the process: the caller never gets a
    registry back. *)
Inductive RegisterOutcome : Type :=
  | Fatal (msg : string)
  | Returns (ps : Plugins).

(** [Plugins.Register] (lines 75-89).  The verbosity-gated line
    [klog.V(1).Infof] has no effect on the registry and is left out. *)
Definition Register (ps : Plugins) (name : string) (plugin : Factory)
    : RegisterOutcome :=
  match registry ps with
  | Some reg =>
      match reg !! name with
      | Some _ =>
          Fatal ("Admission plugin " +:+ Quote name +:+ " was registered twice")
      | None => Returns (MkPlugins (Some (<[name := plugin]> reg)))
      end
  | None => Returns (MkPlugins (Some (<[name := plugin]> ∅)))
  end.

(** Registering plugins one after the other, as an application does at
    startup; a fatal registration ends the process there. *)
Fixpoint registerAll (regs : list (string * Factory)) (ps : Plugins)
    : RegisterOutcome :=
  match regs with
  | [] => Returns ps
  | (name, plugin) :: rest =>
      match Register ps name plugin with
      | Fatal msg => Fatal msg
      | Returns ps' => registerAll rest ps'
      end
  end.

(** Strictly ascending in Go's order on strings. *)
Definition string_lt (s1 s2 : string) : Prop := String.ltb s1 s2 = true.

(** [PluginEnabledFn] is a package variable holding the enablement
    predicate; the code below reads it. *)
Context (PluginEnabledFn : PluginEnabledFunc).

(** [Plugins.getPlugin] (lines 95-113).  A panic of [splitStream] goes
    up through it (the deferred unlock runs and changes nothing here). *)
Definition getPlugin (ps : Plugins) (name : string) (config : ioReader)
    : State World (Outcome (option Interface * bool * error)) :=
  match registry_lookup ps name with
  | None => ret (Normal (None, false, None))
  | Some f =>
      res <~ lift (splitStream config) ;;
      let '(config1, config2, err) := res in
      match err with
      | Some e => ret (Normal (None, true, Some e))
      | None =>
          enabled <- call (PluginEnabledFnCall name config1)
                          (PluginEnabledFn name config1) ;;
          if negb enabled then ret (Normal (None, true, None))
          else
            res <- call (FactoryCall name config2) (f config2) ;;
            let '(plugin, err) := res in
            ret (Normal (plugin, true, err))
      end
  end.

(** [ValidateInitialization] (lines 202-210). *)
Definition ValidateInitialization (plugin : option Interface) : State World error :=
  match plugin with
  | Some p =>
      match InitializationValidator p with
      | Some validater_ValidateInitialization =>
          err <- call (ValidateInitializationCall p)
                      validater_ValidateInitialization ;;
          match err with
          | Some e => ret (Some e)
          | None => ret None
          end
      | None => ret None
      end
  | None => ret None
  end.

(** [PluginInitializers.Initialize] (lines 214-218), from position [k]
    of the set on. *)
Fixpoint Initialize_from (k : nat) (pp : PluginInitializers)
    (plugin : option Interface) : State World unit :=
  match pp with
  | [] => ret tt
  | p :: rest =>
      call (λ _, InitializeCall k plugin) (p plugin) ;;;
      Initialize_from (Datatypes.S k) rest plugin
  end.

Definition PluginInitializers_Initialize (pp : PluginInitializers)
    (plugin : option Interface) : State World unit :=
  Initialize_from 0 pp plugin.

Definition fmt_Errorf (msg : string) : errorValue := errorString msg.

(** [Plugins.InitPlugin] (lines 175-197).  The [pluginInitializer] it is
    given is a set of initializers, as [PluginInitializers] implements
    the interface; a single initializer is the set of one. *)
Definition InitPlugin (ps : Plugins) (name : string) (config : ioReader)
    (pluginInitializer : PluginInitializers)
    : State World (Outcome (option Interface * error)) :=
  if decide (name = "") then
    klog_Info "No admission plugin specified." ;;;
    ret (Normal (None, None))
  else
    res <~ getPlugin ps name config ;;
    let '(plugin, found, err) := res in
    match err with
    | Some e =>
        ret (Normal (None, Some (fmt_Errorf
          ("couldn't init admission plugin " +:+ Quote name +:+ ": " +:+ Error e))))
    | None =>
        if negb found then
          ret (Normal
            (None, Some (fmt_Errorf ("unknown admission plugin: " +:+ name))))
        else
          PluginInitializers_Initialize pluginInitializer plugin ;;;
          err <- ValidateInitialization plugin ;;
          match err with
          | Some e =>
              ret (Normal (None, Some (fmt_Errorf
                ("failed to initialize admission plugin " +:+ Quote name
                   +:+ ": " +:+ Error e))))
          | None => ret (Normal (plugin, None))
          end
    end.

(** *** Vocabulary for statements about instantiation *)

(** The memory after every initializer of the set has run on [plugin],
    in the order of the set. *)
Definition injectAll (pp : PluginInitializers) (plugin : option Interface)
    (m : Mem) : Mem :=
  foldl (λ m p, (p plugin m).2) m pp.

(** The calls [Initialize(plugin)] to initializers [k], [k+1], ...,
    [k+n-1], in this order. *)
Definition initializeCalls (k n : nat) (plugin : option Interface) : list Event :=
  (λ j, InitializeCall j plugin) <$> seq k n.

Definition isInitializeCall (ev : Event) : bool :=
  match ev with
  | InitializeCall _ _ => true
  | _ => false
  end.

Definition isKlogInfo (ev : Event) : bool :=
  match ev with
  | klogInfo _ => true
  | _ => false
  end.

(** The calls a run from world [w] to world [w'] added to the trace. *)
Definition newCalls (w w' : World) : list Event :=
  drop (length (trace w)) (trace w').

(** The loop of [Plugins.NewFromPlugins] (lines 136-162): it returns the
    error that stops it, or the three slices it has built. *)
Fixpoint NewFromPlugins_loop (ps : Plugins) (pluginNames : list string)
    (configProvider : ConfigProvider) (pluginInitializer : PluginInitializers)
    (decorator : Decorator)
    (handlers : list Interface) (mutationPlugins validationPlugins : list string)
    : State World
        (Outcome (errorValue + list Interface * list string * list string)) :=
  match pluginNames with
  | [] => ret (Normal (inr (handlers, mutationPlugins, validationPlugins)))
  | pluginName :: rest =>
      res <- call (ConfigForCall pluginName) (configProvider pluginName) ;;
      let '(pluginConfig, err) := res in
      match err with
      | Some e => ret (Normal (inl e))
      | None =>
          res <~ InitPlugin ps pluginName pluginConfig pluginInitializer ;;
          let '(plugin, err) := res in
          match err with
          | Some e => ret (Normal (inl e))
          | None =>
              match plugin with
              | Some plugin =>
                  let handlers :=
                    match decorator with
                    | Some Decorate => handlers ++ [Decorate plugin pluginName]
                    | None => handlers ++ [plugin]
                    end in
                  let mutationPlugins :=
                    match MutationInterface plugin with
                    | Some _ => mutationPlugins ++ [pluginName]
                    | None => mutationPlugins
                    end in
                  let validationPlugins :=
                    match ValidationInterface plugin with
                    | Some _ => validationPlugins ++ [pluginName]
                    | None => validationPlugins
                    end in
                  NewFromPlugins_loop ps rest configProvider pluginInitializer
                    decorator handlers mutationPlugins validationPlugins
              | None =>
                  NewFromPlugins_loop ps rest configProvider pluginInitializer
                    decorator handlers mutationPlugins validationPlugins
              end
          end
      end
  end.

(** *** Vocabulary for statements about chain construction *)

(** [instantiated names w results w']: starting in world [w], fetching
    the configuration of each name and instantiating it, in list order,
    succeeds for every name, gives [results] (for each name the plugin,
    or nil) and ends in world [w']. *)
Inductive instantiated (ps : Plugins) (configProvider : ConfigProvider)
    (pluginInitializer : PluginInitializers)
    : list string → World → list (string * option Interface) → World → Prop :=
  | instantiated_nil w :
      instantiated ps configProvider pluginInitializer [] w [] w
  | instantiated_cons name names w pluginConfig w1 plugin w2 results w3 :
      call (ConfigForCall name) (configProvider name) w
        = ((pluginConfig, None), w1) →
      InitPlugin ps name pluginConfig pluginInitializer w1
        = (Normal (plugin, None), w2) →
      instantiated ps configProvider pluginInitializer names w2 results w3 →
      instantiated ps configProvider pluginInitializer
        (name :: names) w ((name, plugin) :: results) w3.

(** In world [w], fetching the configuration of [name] or instantiating
    it fails with error [e], ending in world [w']. *)
Definition failsAt (ps : Plugins) (configProvider : ConfigProvider)
    (pluginInitializer : PluginInitializers)
    (name : string) (w : World) (e : errorValue) (w' : World) : Prop :=
  (∃ pluginConfig,
     call (ConfigForCall name) (configProvider name) w
       = ((pluginConfig, Some e), w')) ∨
  (∃ pluginConfig w1 plugin,
     call (ConfigForCall name) (configProvider name) w
       = ((pluginConfig, None), w1) ∧
     InitPlugin ps name pluginConfig pluginInitializer w1
       = (Normal (plugin, Some e), w')).

(** In world [w], the configuration of [name] is fetched and
    instantiating it panics with [msg], ending in world [w']. *)
Definition panicsAt (ps : Plugins) (configProvider : ConfigProvider)
    (pluginInitializer : PluginInitializers)
    (name : string) (w : World) (msg : string) (w' : World) : Prop :=
  ∃ pluginConfig w1,
    call (ConfigForCall name) (configProvider name) w
      = ((pluginConfig, None), w1) ∧
    InitPlugin ps name pluginConfig pluginInitializer w1 = (Panic msg, w').

(** A plugin as it enters the chain: wrapped when there is a decorator. *)
Definition decorated (decorator : Decorator) (plugin : Interface)
    (name : string) : Interface :=
  match decorator with
  | Some Decorate => Decorate plugin name
  | None => plugin
  end.

(** The non-nil plugins among the results, as they enter the chain. *)
Definition chainOf (decorator : Decorator)
    (results : list (string * option Interface)) : list Interface :=
  omap (λ r, (λ plugin, decorated decorator plugin r.1) <$> r.2) results.

Definition implements {A} (capability : option A) : bool :=
  match capability with
  | Some _ => true
  | None => false
  end.

(** The names whose plugin is non-nil and itself passes the test [cap]. *)
Definition namesWith (cap : Interface → bool)
    (results : list (string * option Interface)) : list string :=
  omap (λ r, match r.2 with
             | Some plugin => if cap plugin then Some r.1 else None
             | None => None
             end) results.

Definition loadedMessage (kind : string) (plugins : list string) : string :=
  "Loaded " +:+ fmt_d (length plugins) +:+ " " +:+ kind
    +:+ " admission controller(s) successfully in the following order: "
    +:+ strings_Join plugins "," +:+ ".".

(** [Plugins.NewFromPlugins] (lines 132-171).  [return nil, err] is
    [(None, Some err)]; on success the chain is a non-nil interface. *)
Definition NewFromPlugins (ps : Plugins) (pluginNames : list string)
    (configProvider : ConfigProvider) (pluginInitializer : PluginInitializers)
    (decorator : Decorator)
    : State World (Outcome (option chainAdmissionHandler * error)) :=
  res <~ NewFromPlugins_loop ps pluginNames configProvider pluginInitializer
           decorator [] [] [] ;;
  match res with
  | inl e => ret (Normal (None, Some e))
  | inr (handlers, mutationPlugins, validationPlugins) =>
      (if decide (length mutationPlugins ≠ 0)
       then klog_Info (loadedMessage "mutating" mutationPlugins)
       else ret tt) ;;;
      (if decide (length validationPlugins ≠ 0)
       then klog_Info (loadedMessage "validating" validationPlugins)
       else ret tt) ;;;
      ret (Normal (Some handlers, None))
  end.

(** The [klog] lines that report the two tallies. *)
Definition loadedLines (mutationPlugins validationPlugins : list string)
    : list Event :=
  (if decide (length mutationPlugins ≠ 0)
   then [klogInfo (loadedMessage "mutating" mutationPlugins)] else []) ++
  (if decide (length validationPlugins ≠ 0)
   then [klogInfo (loadedMessage "validating" validationPlugins)] else []).

(** *** Further vocabulary *)

(** The value [PluginEnabledFn] is initialised with (lines 52-54): if
    you ask about it, it's enabled. *)
Definition defaultPluginEnabledFn : PluginEnabledFunc :=
  λ name config, ret true.

(** An enablement predicate that does nothing but read its copy of the
    configuration, by [Read] calls with the given lengths of [p], and
    then gives its verdict. *)
Definition readingPredicate (lengths : list nat) (verdict : bool)
    : PluginEnabledFunc :=
  λ name config,
    match config with
    | ptrReader r => runReads ((λ n, (r, n)) <$> lengths) ;;; ret verdict
    | _ => ret verdict
    end.

(** What a caller can observe of a run: the value returned and the
    memory left; the trace is ghost. *)
Definition observe {A} (res : A * World) : A * Mem := (res.1, mem res.2).

(** A method of this package called as a collaborator of another chain:
    it runs on the memory. *)
Definition asMethod {A} (f : State World A) : State Mem A :=
  λ m, observe (f (MkWorld m [])).

(** A chain as a value of type [Interface], which is how
    [NewFromPlugins] returns it: its method set is [Handles], [Admit]
    and [Validate], so it implements both [MutationInterface] and
    [ValidationInterface] and not [InitializationValidator]. *)
Definition chainAsInterface (chain : chainAdmissionHandler) : Interface :=
  MkInterface
    (chainAdmissionHandler_Handles chain)
    (Some (λ a o, asMethod (chainAdmissionHandler_Admit chain a o)))
    (Some (λ a o, asMethod (chainAdmissionHandler_Validate chain a o)))
    None.

End admission.

(** ** server/options/recommended.go

    The options are pointers to structs of the same package whose
    [ApplyTo] and [Validate] methods are in other files: each component
    is taken as those two methods.  [Config] is the
    [*server.RecommendedConfig] being completed and whatever the methods
    reach from it. *)

Section recommended.

Context {Config Initializer : Type}.

Record RecommendedOptions : Type := MkRecommendedOptions {
  Etcd_ApplyTo : State Config error;
  SecureServing_ApplyTo : State Config error;
  Authentication_ApplyTo : State Config error;
  Authorization_ApplyTo : State Config error;
  Audit_ApplyTo : State Config error;
  Features_ApplyTo : State Config error;
  CoreAPI_ApplyTo : State Config error;
  ExtraAdmissionInitializers : State Config (list Initializer * error);
  Admission_ApplyTo : list Initializer → State Config error
}.

(** The steps of [ApplyTo], in the order of the source. *)
Inductive Step : Type :=
  | EtcdStep | SecureServingStep | AuthenticationStep | AuthorizationStep
  | AuditStep | FeaturesStep | CoreAPIStep
  | ExtraAdmissionInitializersStep | AdmissionStep.

(** A step taken: which one, the initializers it returned or was given
    (for the last two steps), and its error. *)
Record Applied : Type := MkApplied {
  step : Step;
  initializers : list Initializer;
  stepError : error
}.

Record Setup : Type := MkSetup { config : Config; applied : list Applied }.

Definition apply (st : Step) (f : State Config error) : State Setup error :=
  λ s, let (err, c) := f (config s) in
       (err, MkSetup c (applied s ++ [MkApplied st [] err])).

(** [if err := f(); err != nil { return err }], then the rest. *)
Definition orReturn (m : State Setup error) (rest : State Setup error)
    : State Setup error :=
  err <- m ;;
  match err with
  | Some e => ret (Some e)
  | None => rest
  end.

(** [RecommendedOptions.ApplyTo] (lines 105-136). *)
Definition ApplyTo (o : RecommendedOptions) : State Setup error :=
  orReturn (apply EtcdStep (Etcd_ApplyTo o))
  (orReturn (apply SecureServingStep (SecureServing_ApplyTo o))
  (orReturn (apply AuthenticationStep (Authentication_ApplyTo o))
  (orReturn (apply AuthorizationStep (Authorization_ApplyTo o))
  (orReturn (apply AuditStep (Audit_ApplyTo o))
  (orReturn (apply FeaturesStep (Features_ApplyTo o))
  (orReturn (apply CoreAPIStep (CoreAPI_ApplyTo o))
  (λ s,
     let '((initializers, err), c) := ExtraAdmissionInitializers o (config s) in
     let s1 := MkSetup c (applied s ++
                 [MkApplied ExtraAdmissionInitializersStep initializers err]) in
     match err with
     | Some e => (Some e, s1)
     | None =>
         let (err, c') := Admission_ApplyTo o initializers c in
         let s2 := MkSetup c' (applied s1 ++
                     [MkApplied AdmissionStep initializers err]) in
         match err with
         | Some e => (Some e, s2)
         | None => (None, s2)
         end
     end))))))).

(** The order in which [ApplyTo] is to take its steps. *)
Definition applyOrder : list Step :=
  [EtcdStep; SecureServingStep; AuthenticationStep; AuthorizationStep;
   AuditStep; FeaturesStep; CoreAPIStep;
   ExtraAdmissionInitializersStep; AdmissionStep].

End recommended.

(** ** A concrete instance

    The collaborators' state is a journal of the side effects they
    performed; a request is identified with its operation. *)

Definition Journal : Type := list string.

Definition ex_Interface : Type := @Interface Journal Operation unit.
Definition ex_Mem : Type := @Mem Journal.
Definition ex_World : Type := @World Journal Operation unit.
Definition ex_GetOperation (a : Operation) : Operation := a.

(** A collaborator's side effect: a line in the journal. *)
Definition journal {A} (line : string) (a : A) : State ex_Mem A :=
  λ m, (a, MkMem (user m ++ [line]) (objs m) (arrays m)).

(** [%q] for names made of plain characters: the name between quotes. *)
Definition ex_Quote (s : string) : string :=
  String (Ascii.ascii_of_nat 34) (s +:+ String (Ascii.ascii_of_nat 34) EmptyString).

Definition handlesOnly (op : Operation) (operation : Operation) : bool :=
  String.eqb operation op.

(** P1 mutates on Create; P2 validates on Create and rejects; P3 mutates
    and validates on Update. *)
Definition ex_P1 : ex_Interface :=
  MkInterface (handlesOnly Create)
    (Some (λ _ _, journal "P1.Admit" None)) None None.

Definition ex_P2 : ex_Interface :=
  MkInterface (handlesOnly Create)
    None (Some (λ _ _, journal "P2.Validate" (Some (errorString "denied")))) None.

Definition ex_P3 : ex_Interface :=
  MkInterface (handlesOnly Update)
    (Some (λ _ _, journal "P3.Admit" None))
    (Some (λ _ _, journal "P3.Validate" None)) None.

(** P4 mutates on Create and rejects. *)
Definition ex_P4 : ex_Interface :=
  MkInterface (handlesOnly Create)
    (Some (λ _ _, journal "P4.Admit" (Some (errorString "quota exceeded"))))
    None None.

(** P5 validates on Create and checks its own initialization, which
    fails. *)
Definition ex_P5 : ex_Interface :=
  MkInterface (handlesOnly Create)
    None (Some (λ _ _, journal "P5.Validate" None))
    (Some (journal "P5.ValidateInitialization"
             (Some (errorString "missing informer factory")))).

Definition ex_chain : list ex_Interface := [ex_P1; ex_P4; ex_P2; ex_P3; ex_P1].

Definition ex_mem : ex_Mem := MkMem [] [] [].
Definition ex_world : ex_World := MkWorld ex_mem [].

(** A memory holding one configuration stream of two bytes. *)
Definition ex_mem_config : ex_Mem :=
  MkMem [] [Source [Byte.x61; Byte.x62] io_EOF] [].

Definition ex_world_config : ex_World := MkWorld ex_mem_config [].

Definition ex_factory (plugin : ex_Interface)
    : @Factory Journal Operation unit :=
  λ _, journal "factory" (Some plugin, None).

Definition ex_failing_factory : @Factory Journal Operation unit :=
  λ _, journal "factory" (None, Some (errorString "bad configuration")).

(** A registry with three names. *)
Definition ex_Plugins : @Plugins Journal Operation unit :=
  MkPlugins (Some (<["mutator" := ex_factory ex_P1]>
                  (<["strict" := ex_factory ex_P5]>
                  (<["broken" := ex_failing_factory]> ∅)))).

Definition ex_enabled : @PluginEnabledFunc Journal := λ _ _, ret true.
Definition ex_disabled : @PluginEnabledFunc Journal := λ _ _, ret false.

Definition ex_initializer : @PluginInitializer Journal Operation unit :=
  λ _, journal "Initialize" tt.

Definition ex_provider : @ConfigProvider Journal := λ _, ret (nilReader, None).

(** A decorator whose wrapper implements neither capability. *)
Definition ex_Decorate (plugin : ex_Interface) (name : string) : ex_Interface :=
  MkInterface (Handles plugin) None None None.

(** * Properties *)

(** ** Readers and the configuration splitter *)

Section readers.

Context {S : Type}.
Implicit Types (m : @Mem S) (r n : nat) (b : slice).

Lemma sameExcept_refl r m : sameExcept r m m.
Proof. by repeat split. Qed.

Lemma sameExcept_trans r m1 m2 m3 :
  sameExcept r m1 m2 → sameExcept r m2 m3 → sameExcept r m1 m3.
Proof.
  intros (Hu1 & Ha1 & Hl1 & Ho1) (Hu2 & Ha2 & Hl2 & Ho2).
  repeat split; try congruence.
  intros r' Hr'. rewrite Ho2, Ho1; done.
Qed.

Lemma sameExcept_setObj r o m : sameExcept r m (setObj r o m).
Proof.
  repeat split; simpl.
  - apply length_insert.
  - intros r' Hr'. by apply list_lookup_insert_ne.
Qed.

Lemma sameExcept_toRead r r' m m' :
  sameExcept r m m' → r' ≠ r → toRead r' m' = toRead r' m.
Proof.
  intros (_ & Ha & _ & Ho) Hr'. unfold toRead, bytesOf.
  rewrite (Ho r' Hr'), Ha. done.
Qed.

Lemma sameExcept_okReader r r' m m' :
  sameExcept r m m' → r' ≠ r → okReader r' m → okReader r' m'.
Proof.
  intros (_ & Ha & _ & Ho) Hr'. unfold okReader.
  rewrite (Ho r' Hr'), Ha. done.
Qed.

Lemma sameExcept_finalErr r r' m m' :
  sameExcept r m m' → r' ≠ r → finalErr r' m' = finalErr r' m.
Proof.
  intros (_ & _ & _ & Ho) Hr'. unfold finalErr. by rewrite (Ho r' Hr').
Qed.

Lemma take_drop_length {A} (k : nat) (l : list A) :
  take k l ++ drop (length (take k l)) l = l.
Proof.
  rewrite length_take. destruct (decide (k ≤ length l)).
  - rewrite Nat.min_l by done. apply take_drop.
  - rewrite Nat.min_r by lia. rewrite drop_all, take_ge by lia. apply app_nil_r.
Qed.

Lemma bytesOf_length m b :
  len b ≤ length (default [] (arrays m !! arr b)) → length (bytesOf m b) = len b.
Proof. intros H. unfold bytesOf. rewrite length_take. lia. Qed.

(** A [Read] changes nothing but the reader it is called on. *)
Lemma Read_sameExcept r n m : sameExcept r m (Read r n m).2.
Proof.
  unfold Read.
  destruct (objs m !! r) as [[data final|b off]|]; simpl;
    repeat case_decide; try destruct data; simpl;
    auto using sameExcept_refl, sameExcept_setObj.
Qed.

(** One [Read]: the bytes delivered are the head of what the reader had
    left, and when [p] is not empty an error comes exactly once nothing
    is left. *)
Lemma Read_step r n m :
  okReader r m →
  ∃ p err m',
    Read r n m = ((p, err), m') ∧
    okReader r m' ∧
    p ++ toRead r m' = toRead r m ∧
    finalErr r m' = finalErr r m ∧
    (n ≠ 0 →
     match err with
     | None => p ≠ []
     | Some e =>
         p = [] ∧ toRead r m = [] ∧
         match e with io_EOF => None | _ => Some e end = finalErr r m
     end).
Proof.
  intros Hok. unfold Read.
  destruct (objs m !! r) as [[data final|b off]|] eqn:Hobj.
  - destruct (decide (n = 0)) as [->|Hn].
    { eexists _, _, _. split; [done|]. split; [done|]. by repeat split. }
    destruct data as [|x data].
    + eexists _, _, _. split; [done|]. split; [done|].
      unfold toRead, finalErr. rewrite Hobj. by destruct final.
    + eexists _, _, _. split; [done|].
      assert (Hlt : r < length (objs m)) by (by eapply lookup_lt_Some).
      unfold okReader, toRead, finalErr; simpl.
      rewrite list_lookup_insert_eq, Hobj by done.
      split; [done|]. split; [apply take_drop|]. split; [done|].
      intros _. destruct n; done.
  - assert (Hlen : length (bytesOf m b) = len b).
    { apply bytesOf_length. unfold okReader in Hok. by rewrite Hobj in Hok. }
    assert (Hlt : r < length (objs m)) by (by eapply lookup_lt_Some).
    destruct (decide (len b ≤ off)) as [Hempty|Hmore].
    + assert (Hnil : drop off (bytesOf m b) = []) by (apply drop_ge; lia).
      destruct (decide (n = 0)) as [->|Hn];
        (eexists _, _, _; split; [done|]);
        unfold okReader, toRead, finalErr, bytesOf; simpl;
        rewrite list_lookup_insert_eq, Hobj by done; simpl;
        fold (bytesOf m b); rewrite Hnil.
      all: split; [lia|done].
    + eexists _, _, _. split; [done|].
      unfold okReader, toRead, finalErr; simpl.
      rewrite list_lookup_insert_eq, Hobj by done.
      split. { unfold okReader in Hok. by rewrite Hobj in Hok. }
      split.
      { change (bytesOf (setObj _ _ m) b) with (bytesOf m b).
        rewrite <- drop_drop. apply take_drop_length. }
      split; [done|].
      intros Hn Hnil. apply (f_equal length) in Hnil.
      rewrite length_take, length_drop, Hlen in Hnil. simpl in Hnil. lia.
  - eexists _, _, _. split; [done|]. split; [done|].
    unfold toRead, finalErr. rewrite Hobj. done.
Qed.

Lemma MinRead_pos : MinRead ≠ 0.
Proof. unfold MinRead. lia. Qed.

Lemma ReadAll_loop_S fuel r acc m :
  ReadAll_loop (Datatypes.S fuel) r acc m =
  let '((p, err), m1) := Read r MinRead m in
  match err with
  | Some io_EOF => ((acc ++ p, None), m1)
  | Some e => ((acc ++ p, Some e), m1)
  | None => ReadAll_loop fuel r (acc ++ p) m1
  end.
Proof.
  cbn [ReadAll_loop]. unfold bind.
  destruct (Read r MinRead m) as [[p [[|msg]|]] m1]; done.
Qed.

(** With fuel beyond the bytes left, the loop of [ReadAll] delivers all
    of them and the stream's final error. *)
Lemma ReadAll_loop_spec fuel r acc m :
  okReader r m → length (toRead r m) < fuel →
  ∃ m',
    ReadAll_loop fuel r acc m = ((acc ++ toRead r m, finalErr r m), m') ∧
    sameExcept r m m' ∧ okReader r m' ∧ toRead r m' = [].
Proof.
  revert acc m. induction fuel as [|fuel IH]; intros acc m Hok Hfuel; [lia|].
  rewrite ReadAll_loop_S.
  pose proof (Read_sameExcept r MinRead m) as Hsame.
  destruct (Read_step r MinRead m Hok) as (p & err & m1 & HR & Hok1 & Hp & Hfin & Herr).
  rewrite HR in Hsame |- *. simpl in Hsame.
  specialize (Herr MinRead_pos).
  destruct err as [e|].
  - destruct Herr as (-> & Hnil & He). rewrite Hnil in Hp |- *. simpl in Hp.
    destruct e; eexists; (split; [by rewrite <- He|]); done.
  - destruct (IH (acc ++ p) m1 Hok1) as (m' & HL & Hsame' & Hok' & Hnil).
    { rewrite <- Hp, length_app in Hfuel. destruct p; [done|]. simpl in Hfuel. lia. }
    exists m'. rewrite HL, <- Hp, Hfin, (assoc_L (++)).
    eauto using sameExcept_trans.
Qed.

(** Appending a backing array leaves every well-formed slice as it was. *)
Lemma bytesOf_alloc m m' b :
  user m' = user m → (∃ ext, arrays m' = arrays m ++ ext) →
  len b ≤ length (default [] (arrays m !! arr b)) →
  bytesOf m' b = bytesOf m b ∧
  len b ≤ length (default [] (arrays m' !! arr b)).
Proof.
  intros _ [ext Hext] Hwf. unfold bytesOf. rewrite Hext.
  destruct (arrays m !! arr b) as [a|] eqn:Ha.
  - by rewrite (lookup_app_l_Some _ _ _ _ Ha).
  - simpl in *. assert (len b = 0) as -> by lia. split; [done|lia].
Qed.

Lemma alloc_reader r m m' :
  user m' = user m → objs m' !! r = objs m !! r →
  (∃ ext, arrays m' = arrays m ++ ext) →
  okReader r m → okReader r m' ∧ toRead r m' = toRead r m.
Proof.
  intros Hu Ho Hext. unfold okReader, toRead. rewrite Ho.
  destruct (objs m !! r) as [[data final|b off]|]; [done| |done].
  intros Hwf. destruct (bytesOf_alloc m m' b Hu Hext Hwf) as [-> ?]. done.
Qed.

(** [ioutil.ReadAll] returns the reader's remaining bytes in a fresh
    array, with the stream's final error, and drains the reader. *)
Lemma ReadAll_spec r m :
  okReader r m →
  ∃ m',
    ReadAll r m =
      ((Slice (length (arrays m)) (length (toRead r m)), finalErr r m), m') ∧
    user m' = user m ∧
    arrays m' = arrays m ++ [toRead r m] ∧
    length (objs m') = length (objs m) ∧
    (∀ r', r' ≠ r → objs m' !! r' = objs m !! r') ∧
    okReader r m' ∧ toRead r m' = [].
Proof.
  intros Hok. unfold ReadAll, remaining.
  destruct (ReadAll_loop_spec (Datatypes.S (length (toRead r m))) r [] m Hok)
    as (m1 & HL & (Hu & Ha & Hl & Ho) & Hok1 & Hnil); [lia|].
  rewrite HL. simpl. rewrite Ha. eexists. split; [done|]. simpl.
  do 4 (split; [done|]).
  rewrite <- Hnil. apply alloc_reader; simpl; eauto.
  rewrite Ha. eauto.
Qed.

Lemma deliveredBy_cons r r0 p out :
  deliveredBy r ((r0, p) :: out) =
  if decide (r0 = r) then p ++ deliveredBy r out else deliveredBy r out.
Proof.
  unfold deliveredBy. rewrite filter_cons. simpl. by case_decide.
Qed.

Lemma runReads_cons r0 n sched m :
  runReads ((r0, n) :: sched) m =
  let '(res, m1) := Read r0 n m in
  let '(out, m2) := runReads sched m1 in
  ((r0, res.1) :: out, m2).
Proof.
  cbn [runReads]. unfold bind.
  destruct (Read r0 n m) as [res m1]. by destruct (runReads sched m1).
Qed.

(** Independence: however [Read] calls on a reader are interleaved with
    calls on other readers, what it has delivered followed by what it
    still holds is what it held at the start. *)
Lemma runReads_reader r sched m :
  okReader r m →
  okReader r (runReads sched m).2 ∧
  finalErr r (runReads sched m).2 = finalErr r m ∧
  deliveredBy r (runReads sched m).1 ++ toRead r (runReads sched m).2
    = toRead r m.
Proof.
  revert m. induction sched as [|[r0 n] sched IH]; intros m Hok; [done|].
  rewrite runReads_cons.
  destruct (decide (r0 = r)) as [->|Hne].
  - destruct (Read_step r n m Hok) as (p & err & m1 & HR & Hok1 & Hp & Hfin & _).
    rewrite HR. destruct (IH m1 Hok1) as (Hok2 & Hfin2 & Hd).
    destruct (runReads sched m1) as [out m2]. simpl in *.
    split; [done|]. split; [congruence|].
    rewrite deliveredBy_cons, decide_True by done.
    by rewrite <- (assoc_L (++)), Hd.
  - pose proof (Read_sameExcept r0 n m) as Hsame.
    destruct (Read r0 n m) as [res m1]. simpl in Hsame.
    assert (Hok1 : okReader r m1) by eauto using sameExcept_okReader.
    destruct (IH m1 Hok1) as (Hok2 & Hfin2 & Hd).
    destruct (runReads sched m1) as [out m2]. simpl in *.
    split; [done|].
    split. { rewrite Hfin2. eauto using sameExcept_finalErr. }
    rewrite deliveredBy_cons, decide_False by done.
    rewrite Hd. eauto using sameExcept_toRead.
Qed.

(** Draining two distinct readers one after the other gives each one's
    remaining bytes, in slices that both stay valid. *)
Lemma ReadAll_both first second m :
  first ≠ second → okReader first m → okReader second m →
  ∃ s_a m1 s_b m2,
    ReadAll first m = ((s_a, finalErr first m), m1) ∧
    ReadAll second m1 = ((s_b, finalErr second m), m2) ∧
    bytesOf m2 s_a = toRead first m ∧ bytesOf m2 s_b = toRead second m.
Proof.
  intros Hne Hok1 Hok2.
  destruct (ReadAll_spec first m Hok1)
    as (m1 & HR1 & Hu1 & Ha1 & Hl1 & Ho1 & _ & _).
  assert (Ho2 : objs m1 !! second = objs m !! second) by (apply Ho1; done).
  destruct (alloc_reader second m m1 Hu1 Ho2) as [Hok2' Hto2]; [eauto|done|].
  destruct (ReadAll_spec second m1 Hok2')
    as (m2 & HR2 & Hu2 & Ha2 & Hl2 & _ & _ & _).
  eexists _, m1, _, m2. split; [done|].
  split. { rewrite HR2. unfold finalErr. by rewrite Ho2. }
  assert (Ha : bytesOf m1
            (Slice (length (arrays m)) (length (toRead first m)))
          = toRead first m).
  { unfold bytesOf. simpl. rewrite Ha1, lookup_app_r, Nat.sub_diag by done.
    simpl. by rewrite take_ge. }
  split.
  - etrans; [|exact Ha].
    refine (proj1 (bytesOf_alloc m1 m2 _ Hu2 _ _)); [eauto|]. simpl.
    rewrite Ha1, lookup_app_r, Nat.sub_diag by done. done.
  - unfold bytesOf. simpl. rewrite Ha2, lookup_app_r, Nat.sub_diag by done.
    simpl. by rewrite take_ge, Hto2.
Qed.

(** What [splitStream] builds from a live reader that ends cleanly: two
    new buffers, both well formed and both holding the reader's bytes. *)
Lemma splitStream_ok r m :
  okReader r m → finalErr r m = None →
  let r1 := length (objs m) in
  let r2 := Datatypes.S (length (objs m)) in
  ∃ m1,
    splitStream (ptrReader r) m
      = (Normal (ptrReader r1, ptrReader r2, None), m1) ∧
    (okReader r1 m1 ∧ finalErr r1 m1 = None ∧ toRead r1 m1 = toRead r m) ∧
    (okReader r2 m1 ∧ finalErr r2 m1 = None ∧ toRead r2 m1 = toRead r m).
Proof.
  intros Hok Hfin. unfold splitStream, bind.
  destruct (ReadAll_spec r m Hok) as (m0 & HR & Hu & Ha & Hl & Ho & _ & _).
  rewrite HR, Hfin. unfold NewBuffer, ret. simpl.
  rewrite length_app, Hl. simpl. rewrite Nat.add_1_r.
  eexists. split; [done|].
  set (B := Buffer (Slice (length (arrays m)) (length (toRead r m))) 0).
  assert (H1 : ((objs m0 ++ [B]) ++ [B]) !! length (objs m) = Some B).
  { rewrite <- Hl, <- (assoc_L (++)). by rewrite lookup_app_r, Nat.sub_diag. }
  assert (H2 : ((objs m0 ++ [B]) ++ [B]) !! Datatypes.S (length (objs m)) = Some B).
  { rewrite lookup_app_r by (rewrite length_app; simpl; lia).
    rewrite length_app, Hl. simpl.
    by replace (_ - _) with 0 by lia. }
  unfold okReader, finalErr, toRead, bytesOf. simpl. rewrite H1, H2. simpl.
  rewrite Ha, lookup_app_r, Nat.sub_diag by done. simpl.
  rewrite take_ge by done. done.
Qed.

(** X14. [splitStream] duplicates faithfully the streams whose nil
    test it survives: the readers of a kind that has nil.  A nil stream
    (the nil interface or a nil pointer) yields [(nil, nil, nil)] and
    leaves the memory alone.  A stream held through a pointer that reads
    without error yields two distinct readers that each hold exactly the
    stream's bytes, and they are independent: after any interleaving of
    [Read] calls (on them or on any other reader), draining the two with
    [ReadAll], in either order, makes each reproduce exactly those bytes.
    Such a stream whose reading fails yields that error and no
    readers. *)
Theorem splitStream_faithful_duplicator :
  (∀ m, splitStream nilReader m = (Normal (nilReader, nilReader, None), m)) ∧
  (∀ m, splitStream nilPtrReader m = (Normal (nilReader, nilReader, None), m)) ∧
  (∀ m r,
     okReader r m → finalErr r m = None →
     ∃ r1 r2 m1,
       splitStream (ptrReader r) m
         = (Normal (ptrReader r1, ptrReader r2, None), m1) ∧
       r1 ≠ r2 ∧
       toRead r1 m1 = toRead r m ∧ toRead r2 m1 = toRead r m ∧
       ∀ sched first second,
         (first = r1 ∧ second = r2) ∨ (first = r2 ∧ second = r1) →
         ∃ out m2 s_a m3 s_b m4,
           runReads sched m1 = (out, m2) ∧
           ReadAll first m2 = ((s_a, None), m3) ∧
           ReadAll second m3 = ((s_b, None), m4) ∧
           deliveredBy first out ++ bytesOf m4 s_a = toRead r m ∧
           deliveredBy second out ++ bytesOf m4 s_b = toRead r m) ∧
  (∀ m r e,
     okReader r m → finalErr r m = Some e →
     ∃ m1, splitStream (ptrReader r) m
             = (Normal (nilReader, nilReader, Some e), m1)).
Proof.
  split; [done|]. split; [done|]. split.
  - intros m r Hok Hfin.
    destruct (splitStream_ok r m Hok Hfin)
      as (m1 & Hs & (Hok1 & Hf1 & Ht1) & (Hok2 & Hf2 & Ht2)).
    eexists _, _, m1. split; [exact Hs|]. split; [lia|].
    split; [done|]. split; [done|].
    intros sched first second Horder.
    destruct (runReads_reader _ sched m1 Hok1) as (Hok1' & Hf1' & Hd1).
    destruct (runReads_reader _ sched m1 Hok2) as (Hok2' & Hf2' & Hd2).
    destruct (runReads sched m1) as [out m2] eqn:Hrun. simpl in *.
    rewrite Hf1 in Hf1'. rewrite Hf2 in Hf2'.
    rewrite Ht1 in Hd1. rewrite Ht2 in Hd2.
    destruct Horder as [[-> ->]|[-> ->]].
    + destruct (ReadAll_both (length (objs m)) (Datatypes.S (length (objs m)))
                  m2 ltac:(lia) Hok1' Hok2')
        as (s_a & m3 & s_b & m4 & HRa & HRb & Ha & Hb).
      rewrite Hf1' in HRa. rewrite Hf2' in HRb.
      exists out, m2, s_a, m3, s_b, m4. rewrite Ha, Hb. done.
    + destruct (ReadAll_both (Datatypes.S (length (objs m))) (length (objs m))
                  m2 ltac:(lia) Hok2' Hok1')
        as (s_a & m3 & s_b & m4 & HRa & HRb & Ha & Hb).
      rewrite Hf2' in HRa. rewrite Hf1' in HRb.
      exists out, m2, s_a, m3, s_b, m4. rewrite Ha, Hb. done.
  - intros m r e Hok Hfin. unfold splitStream, bind.
    destruct (ReadAll_spec r m Hok) as (m0 & HR & _).
    rewrite HR, Hfin. eexists. done.
Qed.

(** C6, at the input where the code departs from it.  For a stream held
    by value (a reader of a kind that has no nil), [splitStream] panics
    in its nil test: whatever the stream has to deliver, and even if it
    would read without error, nothing is read, the memory is as it was,
    and no readers and no error are returned. *)
Theorem splitStream_value_reader_panics kind r (m : @Mem S) :
  splitStream (valueReader kind r) m = (Panic (reflect_IsNil_panic kind), m) ∧
  (∀ res, (splitStream (valueReader kind r) m).1 ≠ Normal res) ∧
  toRead r (splitStream (valueReader kind r) m).2 = toRead r m.
Proof. done. Qed.

End readers.

(** ** The chain executor *)

Section chain.

Context {S Attributes ObjectInterfaces : Type}.
Context (GetOperation : Attributes → Operation).

Abbreviation Interface := (@Interface S Attributes ObjectInterfaces).
Abbreviation Method := (@Method S Attributes ObjectInterfaces).
Abbreviation World := (@World S Attributes ObjectInterfaces).
Abbreviation Event := (@Event S Attributes ObjectInterfaces).

Implicit Types (cap : Interface → option Method) (ev : nat → error → Event).
Implicit Types (chain pre : list Interface) (w : World).
Implicit Types (calls : list (nat * error)).

Lemma Admit_from_scheme i chain a o w :
  Admit_from GetOperation i chain a o w =
  chain_from GetOperation MutationInterface AdmitCall i chain a o w.
Proof.
  revert i w. induction chain as [|h rest IH]; intros i w; [done|].
  cbn [Admit_from chain_from].
  destruct (negb _); [apply IH|].
  destruct (MutationInterface h) as [f|]; [|apply IH].
  unfold bind. destruct (call _ _ w) as [[e|] w1]; [done|apply IH].
Qed.

Lemma Validate_from_scheme i chain a o w :
  Validate_from GetOperation i chain a o w =
  chain_from GetOperation ValidationInterface ValidateCall i chain a o w.
Proof.
  revert i w. induction chain as [|h rest IH]; intros i w; [done|].
  cbn [Validate_from chain_from].
  destruct (negb _); [apply IH|].
  destruct (ValidationInterface h) as [f|]; [|apply IH].
  unfold bind. destruct (call _ _ w) as [[e|] w1]; [done|apply IH].
Qed.

(** A position that is no candidate may be passed over. *)
Lemma failFastPass_skip cap ev chain a o first calls err w w' :
  ¬ candidate cap (GetOperation a) chain first →
  failFastPass GetOperation cap ev chain a o (Datatypes.S first) calls err w w' →
  failFastPass GetOperation cap ev chain a o first calls err w w'.
Proof.
  intros Hno (Htr & Hre & Hso & Hin & Herr).
  assert (Hstep : ∀ j, first ≤ j → candidate cap (GetOperation a) chain j →
                       Datatypes.S first ≤ j).
  { intros j Hj Hc. destruct (decide (j = first)) as [->|]; [done|lia]. }
  split; [done|]. split; [done|]. split; [done|]. split.
  { intros i Hi. destruct (Hin i Hi). split; [lia|done]. }
  destruct err as [e|].
  - destruct Herr as (calls0 & i & -> & Hall & Hbefore).
    exists calls0, i. eauto.
  - destruct Herr as [Hall Hevery]. eauto.
Qed.

(** The pass stops at a candidate that returns an error. *)
Lemma failFastPass_stop cap ev chain a o first h f e m1 w :
  chain !! first = Some h → Handles h (GetOperation a) = true →
  cap h = Some f → f a o (mem w) = (Some e, m1) →
  failFastPass GetOperation cap ev chain a o first [(first, Some e)] (Some e)
    w (MkWorld m1 (trace w ++ [ev first (Some e)])).
Proof.
  intros Hh Hhandles Hcap Hf.
  split; [done|]. split.
  { simpl. rewrite Hh. simpl. rewrite Hcap. unfold bind, ret. by rewrite Hf. }
  split. { repeat constructor. }
  split.
  { intros i ->%list_elem_of_singleton. split; [done|]. exists h. eauto. }
  exists [], first. split; [done|]. split; [constructor|]. intros; lia.
Qed.

(** The pass goes on after a candidate that returns nil. *)
Lemma failFastPass_continue cap ev chain a o first h f m1 calls err w w' :
  chain !! first = Some h → Handles h (GetOperation a) = true →
  cap h = Some f → f a o (mem w) = (None, m1) →
  failFastPass GetOperation cap ev chain a o (Datatypes.S first) calls err
    (MkWorld m1 (trace w ++ [ev first None])) w' →
  failFastPass GetOperation cap ev chain a o first ((first, None) :: calls) err
    w w'.
Proof.
  intros Hh Hhandles Hcap Hf (Htr & Hre & Hso & Hin & Herr).
  cbn [mem trace] in Htr, Hre.
  assert (Hcand : candidate cap (GetOperation a) chain first)
    by (exists h; eauto).
  unfold failFastPass. rewrite !fmap_cons. cbn [fst snd map].
  split. { by rewrite Htr, <- (assoc_L (++)). }
  split.
  { cbn [replay]. rewrite Hh. simpl.
    rewrite Hcap. unfold bind, ret. rewrite Hf. by rewrite <- Hre. }
  split.
  { constructor; [done|]. apply Forall_forall. intros i Hi.
    destruct (Hin i Hi). lia. }
  split.
  { intros i [->|Hi]%elem_of_cons; [done|].
    destruct (Hin i Hi). split; [lia|done]. }
  assert (Hstep : ∀ j, first ≤ j → j = first ∨ Datatypes.S first ≤ j)
    by (intros; lia).
  destruct err as [e|].
  - destruct Herr as (calls0 & i & -> & Hall & Hbefore).
    exists ((first, None) :: calls0), i. split; [done|].
    split; [by constructor|].
    intros j Hj Hlt Hc. rewrite fmap_cons. cbn [fst].
    destruct (Hstep j Hj) as [->|]; [left|right]; eauto.
  - destruct Herr as [Hall Hevery]. split; [by constructor|].
    intros j Hj Hc.
    destruct (Hstep j Hj) as [->|]; [left|right]; eauto.
Qed.

(** The scheme, run from the position after a prefix [pre] of the whole
    chain, is a fail-fast pass over the rest of the chain. *)
Lemma chain_from_failFast cap ev pre chain a o w :
  ∃ calls,
    failFastPass GetOperation cap ev (pre ++ chain) a o (length pre) calls
      (chain_from GetOperation cap ev (length pre) chain a o w).1
      w (chain_from GetOperation cap ev (length pre) chain a o w).2.
Proof.
  revert pre w. induction chain as [|h rest IH]; intros pre w.
  - exists []. simpl. split; [by rewrite app_nil_r|]. split; [done|].
    split; [constructor|]. split; [by intros i ?%elem_of_nil|].
    split; [constructor|].
    intros i Hi (h & Hh & _). rewrite app_nil_r in Hh.
    apply lookup_lt_Some in Hh. lia.
  - assert (Hhere : (pre ++ h :: rest) !! length pre = Some h)
      by (by rewrite lookup_app_r, Nat.sub_diag).
    assert (IH' : ∀ w1, ∃ calls,
      failFastPass GetOperation cap ev (pre ++ h :: rest) a o
        (Datatypes.S (length pre)) calls
        (chain_from GetOperation cap ev (Datatypes.S (length pre)) rest a o w1).1
        w1 (chain_from GetOperation cap ev (Datatypes.S (length pre)) rest a o w1).2).
    { intros w1. specialize (IH (pre ++ [h]) w1).
      rewrite length_app, Nat.add_1_r, <- (assoc_L (++)) in IH. exact IH. }
    cbn [chain_from].
    destruct (Handles h (GetOperation a)) eqn:Hhandles; simpl.
    + destruct (cap h) as [f|] eqn:Hcap.
      * unfold bind, call. destruct (f a o (mem w)) as [[e|] m1] eqn:Hf.
        -- exists [(length pre, Some e)]. simpl.
           by eapply failFastPass_stop.
        -- destruct (IH' (MkWorld m1 (trace w ++ [ev (length pre) None])))
             as [calls Hcalls].
           exists ((length pre, None) :: calls).
           by eapply failFastPass_continue.
      * destruct (IH' w) as [calls Hcalls]. exists calls.
        apply failFastPass_skip; [|done].
        intros (h' & Hh' & _ & [f Hf]). congruence.
    + destruct (IH' w) as [calls Hcalls]. exists calls.
      apply failFastPass_skip; [|done].
      intros (h' & Hh' & Hhandles' & _). congruence.
Qed.

(** C1. [chainAdmissionHandler.Admit] is a fail-fast pass over the
    mutation capability.  The calls it makes are [Admit] calls only, at
    strictly increasing positions of the chain (list order, no member
    twice), each on a member that handles the request's operation and
    implements [MutationInterface]; the errors returned and the final
    memory are those of invoking exactly these members one after the
    other.  If it returns an error, that error is what the last member
    invoked returned, every member invoked before returned nil, no
    candidate before it was passed over and no later member was invoked.
    If it returns nil, every invoked member returned nil and every
    handling mutation-capable member was invoked. *)
Theorem chain_Admit_fail_fast chain (a : Attributes) (o : ObjectInterfaces) w :
  let op := GetOperation a in
  let res := chainAdmissionHandler_Admit GetOperation chain a o w in
  ∃ calls : list (nat * error),
    trace res.2 = trace w ++ map (λ c, AdmitCall c.1 c.2) calls ∧
    (calls.*2, mem res.2) = replay MutationInterface chain a o calls.*1 (mem w) ∧
    StronglySorted lt calls.*1 ∧
    (∀ i, i ∈ calls.*1 →
       ∃ h, chain !! i = Some h ∧ Handles h op = true ∧
            is_Some (MutationInterface h)) ∧
    match res.1 with
    | None =>
        Forall (λ c, c.2 = None) calls ∧
        ∀ i h, chain !! i = Some h → Handles h op = true →
               is_Some (MutationInterface h) → i ∈ calls.*1
    | Some e =>
        ∃ calls0 i,
          calls = calls0 ++ [(i, Some e)] ∧
          Forall (λ c, c.2 = None) calls0 ∧
          ∀ j h, j < i → chain !! j = Some h → Handles h op = true →
                 is_Some (MutationInterface h) → j ∈ calls0.*1
    end.
Proof.
  intros op res.
  destruct (chain_from_failFast MutationInterface AdmitCall [] chain a o w)
    as (calls & Htr & Hre & Hso & Hin & Herr).
  simpl in Htr, Hre, Hin, Herr.
  rewrite <- !Admit_from_scheme in Htr, Hre, Herr.
  exists calls. split; [done|]. split; [done|]. split; [done|]. split.
  { intros i Hi. by destruct (Hin i Hi). }
  fold (chainAdmissionHandler_Admit GetOperation chain a o w) in Herr.
  fold res in Herr. destruct (res.1) as [e|].
  - destruct Herr as (calls0 & i & -> & Hall & Hbefore).
    exists calls0, i. split; [done|]. split; [done|].
    intros j h Hlt Hh Hhandles Hcap. apply Hbefore; [lia|done|].
    exists h. eauto.
  - destruct Herr as [Hall Hevery]. split; [done|].
    intros i h Hh Hhandles Hcap. apply Hevery; [lia|]. exists h. eauto.
Qed.

(** C5. [chainAdmissionHandler.Validate] is the same fail-fast pass over
    the validation capability: its calls are [Validate] calls only, in
    list order, on members that handle the operation and implement
    [ValidationInterface], so a member without that capability (one
    implementing only mutation, say) is never invoked; the first error
    returned by a member is returned with no later member invoked, and
    when nil is returned every handling validation-capable member was
    invoked and returned nil. *)
Theorem chain_Validate_fail_fast chain (a : Attributes) (o : ObjectInterfaces) w :
  let op := GetOperation a in
  let res := chainAdmissionHandler_Validate GetOperation chain a o w in
  ∃ calls : list (nat * error),
    trace res.2 = trace w ++ map (λ c, ValidateCall c.1 c.2) calls ∧
    (calls.*2, mem res.2) = replay ValidationInterface chain a o calls.*1 (mem w) ∧
    StronglySorted lt calls.*1 ∧
    (∀ i, i ∈ calls.*1 →
       ∃ h, chain !! i = Some h ∧ Handles h op = true ∧
            is_Some (ValidationInterface h)) ∧
    (∀ i h, chain !! i = Some h → ValidationInterface h = None → i ∉ calls.*1) ∧
    match res.1 with
    | None =>
        Forall (λ c, c.2 = None) calls ∧
        ∀ i h, chain !! i = Some h → Handles h op = true →
               is_Some (ValidationInterface h) → i ∈ calls.*1
    | Some e =>
        ∃ calls0 i,
          calls = calls0 ++ [(i, Some e)] ∧
          Forall (λ c, c.2 = None) calls0 ∧
          ∀ j h, j < i → chain !! j = Some h → Handles h op = true →
                 is_Some (ValidationInterface h) → j ∈ calls0.*1
    end.
Proof.
  intros op res.
  destruct (chain_from_failFast ValidationInterface ValidateCall [] chain a o w)
    as (calls & Htr & Hre & Hso & Hin & Herr).
  simpl in Htr, Hre, Hin, Herr.
  rewrite <- !Validate_from_scheme in Htr, Hre, Herr.
  exists calls. split; [done|]. split; [done|]. split; [done|]. split.
  { intros i Hi. by destruct (Hin i Hi). }
  split.
  { intros i h Hh Hnone Hi. destruct (Hin i Hi) as (_ & h' & Hh' & _ & [f Hf]).
    congruence. }
  fold (chainAdmissionHandler_Validate GetOperation chain a o w) in Herr.
  fold res in Herr. destruct (res.1) as [e|].
  - destruct Herr as (calls0 & i & -> & Hall & Hbefore).
    exists calls0, i. split; [done|]. split; [done|].
    intros j h Hlt Hh Hhandles Hcap. apply Hbefore; [lia|done|].
    exists h. eauto.
  - destruct Herr as [Hall Hevery]. split; [done|].
    intros i h Hh Hhandles Hcap. apply Hevery; [lia|]. exists h. eauto.
Qed.

End chain.

(** ** The plugin registry *)

Section registry.

Context {S Attributes ObjectInterfaces : Type}.
Context (Quote : string → string).

Abbreviation Factory := (@Factory S Attributes ObjectInterfaces).
Abbreviation Plugins := (@Plugins S Attributes ObjectInterfaces).

Implicit Types (ps : Plugins) (name : string) (plugin : Factory).
Implicit Types (regs : list (string * Factory)) (keys : list string).

Lemma string_le_lt s1 s2 : String.le s1 s2 → s1 ≠ s2 → string_lt s1 s2.
Proof.
  unfold String.le, string_lt, String.leb, String.ltb. intros Hle Hne.
  destruct (String.compare s1 s2) eqn:Hc; [|done..].
  by apply String.compare_eq_iff in Hc.
Qed.

Lemma string_lt_le s1 s2 : string_lt s1 s2 → String.le s1 s2.
Proof.
  unfold String.le, string_lt, String.leb, String.ltb.
  by destruct (String.compare s1 s2).
Qed.

Lemma string_lt_irrefl s : ¬ string_lt s s.
Proof.
  unfold string_lt, String.ltb.
  pose proof (String.compare_antisym s s) as Hanti.
  by destruct (String.compare s s).
Qed.

(** A list sorted by [≤] without repetition is strictly ascending, and
    conversely. *)
Lemma StronglySorted_le_lt keys :
  StronglySorted String.le keys → NoDup keys → StronglySorted string_lt keys.
Proof.
  induction 1 as [|k keys Hs IH Hall]; intros Hnd; [constructor|].
  apply NoDup_cons in Hnd as [Hk Hnd]. constructor; [auto|].
  apply Forall_forall. intros k' Hk'. apply string_le_lt.
  - by eapply Forall_forall in Hall.
  - intros ->. done.
Qed.

Lemma StronglySorted_lt_le keys :
  StronglySorted string_lt keys → StronglySorted String.le keys ∧ NoDup keys.
Proof.
  induction 1 as [|k keys Hs [IHs IHn] Hall]; [split; constructor|].
  split.
  - constructor; [done|]. eapply Forall_impl; [done|]. apply string_lt_le.
  - apply NoDup_cons. split; [|done]. intros Hk.
    eapply Forall_forall in Hall; [|done]. by apply string_lt_irrefl in Hall.
Qed.

Lemma sort_Strings_Permutation keys : sort_Strings keys ≡ₚ keys.
Proof. apply merge_sort_Permutation. Qed.

Lemma sort_Strings_sorted keys :
  NoDup keys → StronglySorted string_lt (sort_Strings keys).
Proof.
  intros Hnd. apply StronglySorted_le_lt.
  - apply (StronglySorted_merge_sort _).
  - by rewrite sort_Strings_Permutation.
Qed.

(** A strictly ascending list is determined by its elements. *)
Lemma string_lt_sorted_unique keys1 keys2 :
  StronglySorted string_lt keys1 → StronglySorted string_lt keys2 →
  (∀ k, k ∈ keys1 ↔ k ∈ keys2) → keys1 = keys2.
Proof.
  intros [Hs1 Hn1]%StronglySorted_lt_le [Hs2 Hn2]%StronglySorted_lt_le Hel.
  apply (StronglySorted_unique String.le); [done..|].
  by apply NoDup_Permutation.
Qed.

Lemma rangeKeys_NoDup ps : NoDup (rangeKeys ps).
Proof.
  unfold rangeKeys. destruct (registry ps) as [reg|]; [|constructor].
  apply NoDup_fst_map_to_list.
Qed.

Lemma rangeKeys_elem ps name :
  name ∈ rangeKeys ps ↔ is_Some (registry_lookup ps name).
Proof.
  unfold rangeKeys, registry_lookup. destruct (registry ps) as [reg|].
  - rewrite list_elem_of_fmap. split.
    + intros ([k f] & -> & Hin). apply elem_of_map_to_list in Hin. eauto.
    + intros [f Hf]. exists (name, f). split; [done|].
      by apply elem_of_map_to_list.
  - split; [by intros ?%elem_of_nil|by intros [? ?]].
Qed.

Lemma Registered_elem ps name :
  name ∈ Registered ps ↔ is_Some (registry_lookup ps name).
Proof.
  unfold Registered. rewrite sort_Strings_Permutation. apply rangeKeys_elem.
Qed.

Lemma Registered_sorted ps : StronglySorted string_lt (Registered ps).
Proof. apply sort_Strings_sorted, rangeKeys_NoDup. Qed.

(** [Registered] depends only on which names are registered. *)
Lemma Registered_ext ps ps' :
  (∀ name, is_Some (registry_lookup ps name) ↔ is_Some (registry_lookup ps' name)) →
  Registered ps = Registered ps'.
Proof.
  intros Hsame. apply string_lt_sorted_unique; [apply Registered_sorted..|].
  intros k. by rewrite !Registered_elem.
Qed.

Lemma Register_Returns ps name plugin ps' :
  Register Quote ps name plugin = Returns ps' →
  registry_lookup ps name = None ∧
  ∀ n, registry_lookup ps' n =
       if decide (name = n) then Some plugin else registry_lookup ps n.
Proof.
  unfold Register, registry_lookup. destruct (registry ps) as [reg|].
  - destruct (reg !! name) eqn:Hn; [done|]. intros [= <-]. split; [done|].
    intros n. simpl. apply lookup_insert.
  - intros [= <-]. split; [done|]. intros n. simpl.
    rewrite lookup_insert. by case_decide.
Qed.

Lemma registerAll_names regs ps ps' name :
  registerAll Quote regs ps = Returns ps' →
  is_Some (registry_lookup ps' name) ↔
  name ∈ regs.*1 ∨ is_Some (registry_lookup ps name).
Proof.
  revert ps. induction regs as [|[n f] regs IH]; intros ps; simpl.
  - intros [= <-]. rewrite elem_of_nil. tauto.
  - destruct (Register Quote ps n f) as [|ps1] eqn:HR; [done|].
    intros Hall. rewrite (IH ps1 Hall), elem_of_cons.
    apply Register_Returns in HR as [_ HR]. rewrite HR.
    destruct (decide (n = name)) as [->|Hne].
    + split; [by left; left|]. intros _. right. eauto.
    + assert (name ≠ n) by congruence. tauto.
Qed.

Lemma registerAll_fresh regs ps ps' :
  registerAll Quote regs ps = Returns ps' →
  NoDup regs.*1 ∧ ∀ name, name ∈ regs.*1 → registry_lookup ps name = None.
Proof.
  revert ps. induction regs as [|[n f] regs IH]; intros ps; simpl.
  - intros _. split; [constructor|]. by intros name ?%elem_of_nil.
  - destruct (Register Quote ps n f) as [|ps1] eqn:HR; [done|].
    intros Hall. destruct (IH ps1 Hall) as [Hnd Hfresh].
    apply Register_Returns in HR as [Hn HR].
    split.
    + apply NoDup_cons. split; [|done]. intros Hin.
      specialize (Hfresh n Hin). rewrite HR, decide_True in Hfresh; done.
    + intros name [->|Hin]%elem_of_cons; [done|].
      specialize (Hfresh name Hin). rewrite HR in Hfresh.
      by case_decide.
Qed.

Lemma Register_absent ps name plugin :
  registry_lookup ps name = None →
  ∃ ps', Register Quote ps name plugin = Returns ps' ∧
    ∀ n, registry_lookup ps' n =
         if decide (name = n) then Some plugin else registry_lookup ps n.
Proof.
  intros Hnone.
  assert (∃ ps', Register Quote ps name plugin = Returns ps') as [ps' HR].
  { unfold Register, registry_lookup in *.
    destruct (registry ps) as [reg|]; [rewrite Hnone|]; eauto. }
  exists ps'. split; [done|]. by apply Register_Returns in HR as [_ HR].
Qed.

(** C8. Registering a name that is already in the registry takes the
    fatal path of [klog.Fatalf]: no registry is handed back, so the
    existing factory is never overwritten.  Registering a name that is
    not yet in the registry returns, with the name bound to the new
    factory and every other name as before; this includes the nil
    registry of [NewPlugins], and two distinct fresh names registered one
    after the other both succeed. *)
Theorem Register_duplicate_fatal :
  (∀ ps name plugin,
     is_Some (registry_lookup ps name) →
     Register Quote ps name plugin =
       Fatal ("Admission plugin " +:+ Quote name +:+ " was registered twice")) ∧
  (∀ ps name plugin,
     registry_lookup ps name = None →
     ∃ ps', Register Quote ps name plugin = Returns ps' ∧
       ∀ n, registry_lookup ps' n =
            if decide (name = n) then Some plugin else registry_lookup ps n) ∧
  (∀ name plugin,
     ∃ ps', Register Quote NewPlugins name plugin = Returns ps' ∧
       registry_lookup ps' name = Some plugin) ∧
  (∀ ps name1 plugin1 name2 plugin2,
     name1 ≠ name2 →
     registry_lookup ps name1 = None → registry_lookup ps name2 = None →
     ∃ ps1 ps2,
       Register Quote ps name1 plugin1 = Returns ps1 ∧
       Register Quote ps1 name2 plugin2 = Returns ps2 ∧
       registry_lookup ps2 name1 = Some plugin1 ∧
       registry_lookup ps2 name2 = Some plugin2).
Proof.
  split; [|split; [|split]].
  - intros ps name plugin [f Hf]. unfold Register, registry_lookup in *.
    destruct (registry ps) as [reg|]; [|done]. by rewrite Hf.
  - apply Register_absent.
  - intros name plugin.
    destruct (Register_absent NewPlugins name plugin) as (ps' & HR & Hl); [done|].
    exists ps'. split; [done|]. by rewrite Hl, decide_True.
  - intros ps name1 plugin1 name2 plugin2 Hne Hn1 Hn2.
    destruct (Register_absent ps name1 plugin1 Hn1) as (ps1 & HR1 & Hl1).
    destruct (Register_absent ps1 name2 plugin2) as (ps2 & HR2 & Hl2).
    { by rewrite Hl1, decide_False. }
    exists ps1, ps2. split; [done|]. split; [done|].
    split.
    + rewrite Hl2, decide_False by congruence. by rewrite Hl1, decide_True.
    + by rewrite Hl2, decide_True.
Qed.

(** C9. In every state of the registry, [Registered] returns the
    registered names and nothing else, strictly ascending in
    lexicographic order, hence without duplicates, whatever order the map
    yields its keys in.  It does not depend on the order of registration:
    after any sequence of registrations that succeeds from the empty
    registry it is the sorted list of the names registered, the same for
    every reordering of the sequence. *)
Theorem Registered_sorted_set :
  (∀ ps,
     StronglySorted string_lt (Registered ps) ∧
     NoDup (Registered ps) ∧
     (∀ name, name ∈ Registered ps ↔ is_Some (registry_lookup ps name)) ∧
     (∀ keys, keys ≡ₚ rangeKeys ps → sort_Strings keys = Registered ps)) ∧
  (∀ regs regs' ps ps',
     regs ≡ₚ regs' →
     registerAll Quote regs NewPlugins = Returns ps →
     registerAll Quote regs' NewPlugins = Returns ps' →
     Registered ps = sort_Strings regs.*1 ∧ Registered ps' = Registered ps).
Proof.
  split.
  - intros ps. split; [apply Registered_sorted|].
    split; [apply StronglySorted_lt_le, Registered_sorted|].
    split; [apply Registered_elem|].
    intros keys Hperm. apply string_lt_sorted_unique.
    + apply sort_Strings_sorted. rewrite Hperm. apply rangeKeys_NoDup.
    + apply Registered_sorted.
    + intros k. unfold Registered. by rewrite !sort_Strings_Permutation, Hperm.
  - intros regs regs' ps ps' Hperm Hregs Hregs'. split.
    + apply string_lt_sorted_unique.
      * apply Registered_sorted.
      * apply sort_Strings_sorted. by apply (registerAll_fresh regs NewPlugins ps).
      * intros k. rewrite Registered_elem, sort_Strings_Permutation.
        rewrite (registerAll_names regs NewPlugins ps k Hregs).
        split; [intros [?|[? ?]]; done|by left].
    + apply Registered_ext. intros name.
      rewrite (registerAll_names regs NewPlugins ps name Hregs).
      rewrite (registerAll_names regs' NewPlugins ps' name Hregs').
      by rewrite Hperm.
Qed.

End registry.

(** ** Plugin instantiation and chain construction *)

Section plugins.

Context {S Attributes ObjectInterfaces : Type}.
Context (Quote : string → string).
Context (PluginEnabledFn : @PluginEnabledFunc S).

Abbreviation Interface' := (@Interface S Attributes ObjectInterfaces).
Abbreviation World' := (@World S Attributes ObjectInterfaces).
Abbreviation Plugins' := (@Plugins S Attributes ObjectInterfaces).
Abbreviation PluginInitializers' := (@PluginInitializers S Attributes ObjectInterfaces).
Abbreviation getPlugin' := (getPlugin PluginEnabledFn).
Abbreviation InitPlugin' := (InitPlugin Quote PluginEnabledFn).

Implicit Types (ps : Plugins') (name : string) (config : ioReader).
Implicit Types (inits : PluginInitializers') (w : World').
Implicit Types (plugin : option Interface') (p : Interface').

Lemma World_eta w : MkWorld (mem w) (trace w) = w.
Proof. by destruct w. Qed.

(** The set of initializers runs every member once, in order. *)
Lemma Initialize_from_spec k inits plugin w :
  Initialize_from k inits plugin w =
  (tt, MkWorld (injectAll inits plugin (mem w))
               (trace w ++ initializeCalls k (length inits) plugin)).
Proof.
  revert k w. induction inits as [|i inits IH]; intros k w.
  - simpl. unfold ret, initializeCalls. simpl.
    by rewrite app_nil_r, World_eta.
  - cbn [Initialize_from]. unfold bind, call.
    destruct (i plugin (mem w)) as [[] m1] eqn:Hi. rewrite IH. simpl.
    rewrite Hi. simpl. unfold initializeCalls. simpl.
    by rewrite <- (assoc_L (++)).
Qed.

Lemma ValidateInitialization_nil w :
  ValidateInitialization (None : option Interface') w = (None, w).
Proof. done. Qed.

Lemma ValidateInitialization_without p w :
  InitializationValidator p = None →
  ValidateInitialization (Some p) w = (None, w).
Proof. intros Hv. simpl. by rewrite Hv. Qed.

Lemma ValidateInitialization_with p v w verr m' :
  InitializationValidator p = Some v → v (mem w) = (verr, m') →
  ValidateInitialization (Some p) w =
  (verr, MkWorld m' (trace w ++ [ValidateInitializationCall p verr])).
Proof.
  intros Hv Hrun. simpl. rewrite Hv. unfold bind, call. rewrite Hrun.
  by destruct verr.
Qed.

(** The ways through [getPlugin]. *)
Lemma getPlugin_unknown ps name config w :
  registry_lookup ps name = None →
  getPlugin' ps name config w = (Normal (None, false, None), w).
Proof. intros Hl. unfold getPlugin. by rewrite Hl. Qed.

Lemma getPlugin_split_panics ps name config w f msg m1 :
  registry_lookup ps name = Some f →
  splitStream config (mem w) = (Panic msg, m1) →
  getPlugin' ps name config w = (Panic msg, MkWorld m1 (trace w)).
Proof.
  intros Hl Hs. unfold getPlugin. rewrite Hl. unfold bindNormal, lift.
  by rewrite Hs.
Qed.

Lemma getPlugin_split_fails ps name config w f c1 c2 e m1 :
  registry_lookup ps name = Some f →
  splitStream config (mem w) = (Normal (c1, c2, Some e), m1) →
  getPlugin' ps name config w
    = (Normal (None, true, Some e), MkWorld m1 (trace w)).
Proof.
  intros Hl Hs. unfold getPlugin. rewrite Hl. unfold bindNormal, lift.
  by rewrite Hs.
Qed.

Lemma getPlugin_disabled ps name config w f c1 c2 m1 m2 :
  registry_lookup ps name = Some f →
  splitStream config (mem w) = (Normal (c1, c2, None), m1) →
  PluginEnabledFn name c1 m1 = (false, m2) →
  getPlugin' ps name config w =
  (Normal (None, true, None),
   MkWorld m2 (trace w ++ [PluginEnabledFnCall name c1 false])).
Proof.
  intros Hl Hs He. unfold getPlugin. rewrite Hl.
  unfold bindNormal, bind, lift, call.
  rewrite Hs. simpl. by rewrite He.
Qed.

Lemma getPlugin_factory ps name config w f c1 c2 m1 m2 plugin err m3 :
  registry_lookup ps name = Some f →
  splitStream config (mem w) = (Normal (c1, c2, None), m1) →
  PluginEnabledFn name c1 m1 = (true, m2) →
  f c2 m2 = ((plugin, err), m3) →
  getPlugin' ps name config w =
  (Normal (plugin, true, err),
   MkWorld m3 (trace w ++ [PluginEnabledFnCall name c1 true;
                           FactoryCall name c2 (plugin, err)])).
Proof.
  intros Hl Hs He Hf. unfold getPlugin. rewrite Hl.
  unfold bindNormal, bind, lift, call.
  rewrite Hs. simpl. rewrite He. simpl. rewrite Hf. simpl.
  by rewrite <- (assoc_L (++)).
Qed.

(** The ways through [InitPlugin], given what [getPlugin] returned. *)
Lemma InitPlugin_empty ps config inits w :
  InitPlugin' ps "" config inits w =
  (Normal (None, None),
   MkWorld (mem w) (trace w ++ [klogInfo "No admission plugin specified."])).
Proof. done. Qed.

Lemma InitPlugin_getPlugin_panics ps name config inits w msg w1 :
  name ≠ "" →
  getPlugin' ps name config w = (Panic msg, w1) →
  InitPlugin' ps name config inits w = (Panic msg, w1).
Proof.
  intros Hname Hg. unfold InitPlugin. rewrite decide_False by done.
  unfold bindNormal. by rewrite Hg.
Qed.

Lemma InitPlugin_getPlugin_error ps name config inits w plugin found e w1 :
  name ≠ "" →
  getPlugin' ps name config w = (Normal (plugin, found, Some e), w1) →
  InitPlugin' ps name config inits w =
  (Normal (None, Some (errorString
      ("couldn't init admission plugin " +:+ Quote name +:+ ": " +:+ Error e))),
   w1).
Proof.
  intros Hname Hg. unfold InitPlugin. rewrite decide_False by done.
  unfold bindNormal. by rewrite Hg.
Qed.

Lemma InitPlugin_not_found ps name config inits w plugin w1 :
  name ≠ "" →
  getPlugin' ps name config w = (Normal (plugin, false, None), w1) →
  InitPlugin' ps name config inits w =
  (Normal (None, Some (errorString ("unknown admission plugin: " +:+ name))),
   w1).
Proof.
  intros Hname Hg. unfold InitPlugin. rewrite decide_False by done.
  unfold bindNormal. by rewrite Hg.
Qed.

Lemma InitPlugin_found ps name config inits w plugin w1 :
  name ≠ "" →
  getPlugin' ps name config w = (Normal (plugin, true, None), w1) →
  InitPlugin' ps name config inits w =
  let w2 := MkWorld (injectAll inits plugin (mem w1))
              (trace w1 ++ initializeCalls 0 (length inits) plugin) in
  let verr := (ValidateInitialization plugin w2).1 in
  (Normal
     match verr with
     | Some e =>
         (None, Some (errorString
            ("failed to initialize admission plugin " +:+ Quote name
               +:+ ": " +:+ Error e)))
     | None => (plugin, None)
     end, (ValidateInitialization plugin w2).2).
Proof.
  intros Hname Hg. unfold InitPlugin. rewrite decide_False by done.
  unfold bindNormal, bind. rewrite Hg. simpl.
  unfold PluginInitializers_Initialize. rewrite Initialize_from_spec.
  destruct (ValidateInitialization plugin _) as [[e|] w3]; done.
Qed.

(** Where a panic comes from: the nil test of [splitStream] on a reader
    held by value, reached for a registered, non-empty name.  Nothing
    has happened by then. *)
Lemma splitStream_Panic config (m : @Mem S) msg m' :
  splitStream config m = (Panic msg, m') →
  ∃ kind r, config = valueReader kind r ∧ msg = reflect_IsNil_panic kind ∧ m' = m.
Proof.
  destruct config as [| |r|kind r]; simpl; try done.
  - unfold bind. destruct (ReadAll r m) as [[b [e|]] m1]; done.
  - intros [= <- <-]. eauto.
Qed.

Lemma getPlugin_Panic ps name config w msg w' :
  getPlugin' ps name config w = (Panic msg, w') →
  is_Some (registry_lookup ps name) ∧
  ∃ kind r, config = valueReader kind r ∧ msg = reflect_IsNil_panic kind ∧ w' = w.
Proof.
  unfold getPlugin. destruct (registry_lookup ps name) as [f|]; [|done].
  unfold bindNormal, lift.
  destruct (splitStream config (mem w)) as [[[[c1 c2] [e|]]|msg'] m1] eqn:Hs.
  - done.
  - unfold bind, call. simpl.
    destruct (PluginEnabledFn name c1 m1) as [[] m2]; simpl; [|done].
    by destruct (f c2 m2) as [[plugin err] m3].
  - intros [= <- <-]. split; [done|].
    destruct (splitStream_Panic _ _ _ _ Hs) as (kind & r & -> & -> & ->).
    exists kind, r. by rewrite World_eta.
Qed.

Lemma InitPlugin_Panic ps name config inits w msg w' :
  InitPlugin' ps name config inits w = (Panic msg, w') →
  name ≠ "" ∧ is_Some (registry_lookup ps name) ∧
  ∃ kind r, config = valueReader kind r ∧ msg = reflect_IsNil_panic kind ∧ w' = w.
Proof.
  unfold InitPlugin. destruct (decide (name = "")) as [->|Hname]; [done|].
  unfold bindNormal.
  destruct (getPlugin' ps name config w) as [[[[plugin found] [e|]]|msg'] w1]
    eqn:Hg.
  - done.
  - destruct found; [|done]. unfold bind. simpl.
    destruct (PluginInitializers_Initialize inits plugin w1) as [[] w2].
    by destruct (ValidateInitialization plugin w2) as [[e|] w3].
  - intros [= <- <-]. split; [done|]. by eapply getPlugin_Panic.
Qed.

(** *** [NewFromPlugins] *)

Abbreviation ConfigProvider' := (@ConfigProvider S).
Abbreviation Decorator' := (@Decorator S Attributes ObjectInterfaces).
Abbreviation NewFromPlugins_loop' := (NewFromPlugins_loop Quote PluginEnabledFn).
Abbreviation NewFromPlugins' := (NewFromPlugins Quote PluginEnabledFn).
Abbreviation instantiated' := (instantiated Quote PluginEnabledFn).
Abbreviation failsAt' := (failsAt Quote PluginEnabledFn).
Abbreviation panicsAt' := (panicsAt Quote PluginEnabledFn).
Abbreviation mutating := (namesWith (λ p : Interface', implements (MutationInterface p))).
Abbreviation validating := (namesWith (λ p : Interface', implements (ValidationInterface p))).

Implicit Types (names pre post : list string) (provider : ConfigProvider').
Implicit Types (decorator : Decorator').
Implicit Types (results : list (string * option Interface')).

(** When every name instantiates, the loop appends the plugins, wrapped
    if there is a decorator, and the names of the undecorated plugins
    that implement each capability. *)
Lemma loop_instantiated ps provider inits decorator names w results w' :
  instantiated' ps provider inits names w results w' →
  ∀ handlers muts vals,
    NewFromPlugins_loop' ps names provider inits decorator handlers muts vals w =
    (Normal (inr (handlers ++ chainOf decorator results,
                  muts ++ mutating results, vals ++ validating results)), w').
Proof.
  induction 1 as [w|name names w cfg w1 plugin w2 results w3 Hcfg Hinit _ IH];
    intros handlers muts vals.
  - simpl. unfold ret. by rewrite !app_nil_r.
  - cbn [NewFromPlugins_loop]. unfold bindNormal, bind. rewrite Hcfg, Hinit.
    destruct plugin as [p|]; [|apply IH]. rewrite IH.
    unfold chainOf, namesWith, decorated. simpl.
    f_equal. f_equal. f_equal. f_equal; [f_equal|].
    + destruct decorator; by rewrite <- (assoc_L (++)).
    + destruct (MutationInterface p); simpl;
        [by rewrite <- (assoc_L (++))|done].
    + destruct (ValidationInterface p); simpl;
        [by rewrite <- (assoc_L (++))|done].
Qed.

(** When a name fails after the names before it instantiated, the loop
    stops there with that error. *)
Lemma loop_fails ps provider inits decorator pre name post w results w1 e w' :
  instantiated' ps provider inits pre w results w1 →
  failsAt' ps provider inits name w1 e w' →
  ∀ handlers muts vals,
    NewFromPlugins_loop' ps (pre ++ name :: post) provider inits decorator
      handlers muts vals w = (Normal (inl e), w').
Proof.
  induction 1 as [w|n names w cfg w1 plugin w2 results w3 Hcfg Hinit _ IH];
    intros Hfail handlers muts vals.
  - simpl. unfold bindNormal, bind.
    destruct Hfail as [(cfg & ->)|(cfg & w1 & plugin & -> & ->)]; done.
  - cbn [app NewFromPlugins_loop]. unfold bindNormal, bind.
    rewrite Hcfg, Hinit.
    destruct plugin as [p|]; by apply IH.
Qed.

(** When instantiating a name panics after the names before it
    instantiated, the loop ends there in that panic. *)
Lemma loop_panics ps provider inits decorator pre name post w results w1 msg w' :
  instantiated' ps provider inits pre w results w1 →
  panicsAt' ps provider inits name w1 msg w' →
  ∀ handlers muts vals,
    NewFromPlugins_loop' ps (pre ++ name :: post) provider inits decorator
      handlers muts vals w = (Panic msg, w').
Proof.
  induction 1 as [w|n names w cfg w1 plugin w2 results w3 Hcfg Hinit _ IH];
    intros Hpanic handlers muts vals.
  - simpl. unfold bindNormal, bind.
    destruct Hpanic as (cfg & w1 & -> & ->). done.
  - cbn [app NewFromPlugins_loop]. unfold bindNormal, bind.
    rewrite Hcfg, Hinit.
    destruct plugin as [p|]; by apply IH.
Qed.

(** Every list of names either instantiates throughout, or has a first
    name that fails, or has a first name at which instantiation
    panics. *)
Lemma instantiated_or_fails ps provider inits names w :
  (∃ results w', instantiated' ps provider inits names w results w') ∨
  (∃ pre name post results w1 e w',
     names = pre ++ name :: post ∧
     instantiated' ps provider inits pre w results w1 ∧
     failsAt' ps provider inits name w1 e w') ∨
  (∃ pre name post results w1 msg w',
     names = pre ++ name :: post ∧
     instantiated' ps provider inits pre w results w1 ∧
     panicsAt' ps provider inits name w1 msg w').
Proof.
  revert w. induction names as [|name names IH]; intros w.
  - left. eexists _, _. constructor.
  - destruct (call (ConfigForCall name) (provider name) w)
      as [[cfg [e|]] w1] eqn:Hcfg.
    { right. left. exists [], name, names, [], w, e, w1.
      split; [done|]. split; [constructor|]. left. eauto. }
    destruct (InitPlugin' ps name cfg inits w1)
      as [[[plugin [e|]]|msg] w2] eqn:Hinit.
    { right. left. exists [], name, names, [], w, e, w2.
      split; [done|]. split; [constructor|]. right. eauto 10. }
    2:{ right. right. exists [], name, names, [], w, msg, w2.
        split; [done|]. split; [constructor|]. by exists cfg, w1. }
    destruct (IH w2)
      as [(results & w' & Hall)
         |[(pre & n & post & results & w3 & e & w' & -> & Hpre & Hfail)
          |(pre & n & post & results & w3 & msg & w' & -> & Hpre & Hpanic)]].
    + left. eexists _, _. by econstructor.
    + right. left.
      exists (name :: pre), n, post, ((name, plugin) :: results), w3, e, w'.
      split; [done|]. split; [by econstructor|done].
    + right. right.
      exists (name :: pre), n, post, ((name, plugin) :: results), w3, msg, w'.
      split; [done|]. split; [by econstructor|done].
Qed.

Lemma NewFromPlugins_succeeds ps provider inits decorator names w results w1 :
  instantiated' ps provider inits names w results w1 →
  NewFromPlugins' ps names provider inits decorator w =
  (Normal (Some (chainOf decorator results), None),
   MkWorld (mem w1)
     (trace w1 ++ loadedLines (mutating results) (validating results))).
Proof.
  intros Hall. unfold NewFromPlugins, bindNormal, bind, loadedLines.
  rewrite (loop_instantiated _ _ _ _ _ _ _ _ Hall). simpl.
  destruct (decide (length (mutating results) ≠ 0));
    destruct (decide (length (validating results) ≠ 0));
    unfold klog_Info, ret; simpl;
    rewrite <- ?(assoc_L (++)), ?app_nil_r, ?World_eta; done.
Qed.

Lemma NewFromPlugins_fails ps provider inits decorator pre name post w
    results w1 e w' :
  instantiated' ps provider inits pre w results w1 →
  failsAt' ps provider inits name w1 e w' →
  NewFromPlugins' ps (pre ++ name :: post) provider inits decorator w =
  (Normal (None, Some e), w').
Proof.
  intros Hpre Hfail. unfold NewFromPlugins, bindNormal.
  by rewrite (loop_fails _ _ _ _ _ _ _ _ _ _ _ _ Hpre Hfail).
Qed.

Lemma NewFromPlugins_panics ps provider inits decorator pre name post w
    results w1 msg w' :
  instantiated' ps provider inits pre w results w1 →
  panicsAt' ps provider inits name w1 msg w' →
  NewFromPlugins' ps (pre ++ name :: post) provider inits decorator w =
  (Panic msg, w').
Proof.
  intros Hpre Hpanic. unfold NewFromPlugins, bindNormal.
  by rewrite (loop_panics _ _ _ _ _ _ _ _ _ _ _ _ Hpre Hpanic).
Qed.

(** *** The claims about [InitPlugin] *)

(** C2. The outcomes of [InitPlugin], in the order the code tests for
    them.  An empty name gives [(nil, nil)].  A non-empty name absent
    from the registry gives the error "unknown admission plugin: NAME"
    and changes nothing.  A registered name whose configuration splits
    and for which the enablement predicate returns false gives
    [(nil, nil)].  A factory that returns an error (with or without a
    plugin) gives no plugin and the error "couldn't init admission plugin
    NAME: CAUSE", and so does a configuration stream that fails to
    read. *)
Theorem InitPlugin_outcomes :
  (∀ ps config inits w,
     (InitPlugin' ps "" config inits w).1 = Normal (None, None)) ∧
  (∀ ps name config inits w,
     name ≠ "" → registry_lookup ps name = None →
     InitPlugin' ps name config inits w =
       (Normal
          (None, Some (errorString ("unknown admission plugin: " +:+ name))),
        w)) ∧
  (∀ ps name config inits w f c1 c2 m1 m2,
     name ≠ "" → registry_lookup ps name = Some f →
     splitStream config (mem w) = (Normal (c1, c2, None), m1) →
     PluginEnabledFn name c1 m1 = (false, m2) →
     (InitPlugin' ps name config inits w).1 = Normal (None, None)) ∧
  (∀ ps name config inits w f c1 c2 m1 m2 plugin e m3,
     name ≠ "" → registry_lookup ps name = Some f →
     splitStream config (mem w) = (Normal (c1, c2, None), m1) →
     PluginEnabledFn name c1 m1 = (true, m2) →
     f c2 m2 = ((plugin, Some e), m3) →
     (InitPlugin' ps name config inits w).1 =
       Normal (None, Some (errorString
          ("couldn't init admission plugin " +:+ Quote name +:+ ": "
             +:+ Error e)))) ∧
  (∀ ps name config inits w f c1 c2 e m1,
     name ≠ "" → registry_lookup ps name = Some f →
     splitStream config (mem w) = (Normal (c1, c2, Some e), m1) →
     (InitPlugin' ps name config inits w).1 =
       Normal (None, Some (errorString
          ("couldn't init admission plugin " +:+ Quote name +:+ ": "
             +:+ Error e)))).
Proof.
  split; [done|]. split; [|split; [|split]].
  - intros ps name config inits w Hname Hl.
    eapply InitPlugin_not_found; [done|]. by apply getPlugin_unknown.
  - intros ps name config inits w f c1 c2 m1 m2 Hname Hl Hs He.
    erewrite InitPlugin_found; [|done|by eapply getPlugin_disabled]. done.
  - intros ps name config inits w f c1 c2 m1 m2 plugin e m3 Hname Hl Hs He Hf.
    erewrite InitPlugin_getPlugin_error; [|done|by eapply getPlugin_factory].
    done.
  - intros ps name config inits w f c1 c2 e m1 Hname Hl Hs.
    erewrite InitPlugin_getPlugin_error; [|done|by eapply getPlugin_split_fails].
    done.
Qed.

Lemma newCalls_app w t (m : @Mem S) : newCalls w (MkWorld m (trace w ++ t)) = t.
Proof. unfold newCalls. simpl. by rewrite drop_app_length. Qed.

Lemma newCalls_none w (m : @Mem S) : newCalls w (MkWorld m (trace w)) = [].
Proof. unfold newCalls. simpl. apply drop_all. Qed.

Lemma newCalls_same w : newCalls w w = [].
Proof. unfold newCalls. apply drop_all. Qed.

Lemma filter_initializeCalls k n plugin :
  filter (λ ev, isInitializeCall ev) (initializeCalls k n plugin)
  = initializeCalls k n plugin.
Proof.
  unfold initializeCalls. revert k. induction n as [|n IH]; intros k; [done|].
  simpl. rewrite filter_cons_True by done. by rewrite IH.
Qed.

(** C3, as the code has it.  Of the calls [InitPlugin] makes, those to
    initializers are as follows.  None for an empty name, for a name
    absent from the registry, for a configuration stream that fails to
    read, and for a factory that returns an error.  For a registered
    name that the enablement predicate disables, every initializer of
    the set is called once, in set order, on the nil plugin.  For a
    factory that returns without error, every initializer of the set is
    called once, in set order, on what the factory returned (the plugin,
    or nil), after the factory call and before any
    [ValidateInitialization] call, and self-validation runs on the memory
    the initializers leave.  None, last, when the nil test on the
    configuration panics. *)
Theorem InitPlugin_initializers :
  let initCalls ps name config inits w :=
    filter (λ ev, isInitializeCall ev)
      (newCalls w (InitPlugin' ps name config inits w).2) in
  (∀ ps config inits w, initCalls ps "" config inits w = []) ∧
  (∀ ps name config inits w,
     name ≠ "" → registry_lookup ps name = None →
     initCalls ps name config inits w = []) ∧
  (∀ ps name config inits w f c1 c2 e m1,
     name ≠ "" → registry_lookup ps name = Some f →
     splitStream config (mem w) = (Normal (c1, c2, Some e), m1) →
     initCalls ps name config inits w = []) ∧
  (∀ ps name config inits w f c1 c2 m1 m2 plugin e m3,
     name ≠ "" → registry_lookup ps name = Some f →
     splitStream config (mem w) = (Normal (c1, c2, None), m1) →
     PluginEnabledFn name c1 m1 = (true, m2) →
     f c2 m2 = ((plugin, Some e), m3) →
     initCalls ps name config inits w = []) ∧
  (∀ ps name config inits w f c1 c2 m1 m2,
     name ≠ "" → registry_lookup ps name = Some f →
     splitStream config (mem w) = (Normal (c1, c2, None), m1) →
     PluginEnabledFn name c1 m1 = (false, m2) →
     initCalls ps name config inits w = initializeCalls 0 (length inits) None ∧
     InitPlugin' ps name config inits w =
       (Normal (None, None),
        MkWorld (injectAll inits None m2)
          (trace w ++ [PluginEnabledFnCall name c1 false]
             ++ initializeCalls 0 (length inits) None))) ∧
  (∀ ps name config inits w f c1 c2 m1 m2 plugin m3,
     name ≠ "" → registry_lookup ps name = Some f →
     splitStream config (mem w) = (Normal (c1, c2, None), m1) →
     PluginEnabledFn name c1 m1 = (true, m2) →
     f c2 m2 = ((plugin, None), m3) →
     initCalls ps name config inits w = initializeCalls 0 (length inits) plugin ∧
     ∃ w2,
       mem w2 = injectAll inits plugin m3 ∧
       trace w2 = trace w ++ [PluginEnabledFnCall name c1 true;
                              FactoryCall name c2 (plugin, None)]
                    ++ initializeCalls 0 (length inits) plugin ∧
       (InitPlugin' ps name config inits w).2
         = (ValidateInitialization plugin w2).2 ∧
       filter (λ ev, isInitializeCall ev)
         (newCalls w2 (ValidateInitialization plugin w2).2) = []) ∧
  (∀ ps name kind r inits w f,
     name ≠ "" → registry_lookup ps name = Some f →
     initCalls ps name (valueReader kind r) inits w = []).
Proof.
  intros initCalls. subst initCalls. cbv beta.
  split; [|split; [|split; [|split; [|split; [|split]]]]].
  7:{ intros ps name kind r inits w f Hname Hl.
      erewrite InitPlugin_getPlugin_panics;
        [|done|by eapply getPlugin_split_panics].
      simpl. by rewrite newCalls_none. }
  - intros ps config inits w. rewrite InitPlugin_empty. simpl.
    by rewrite newCalls_app.
  - intros ps name config inits w Hname Hl.
    erewrite InitPlugin_not_found; [|done|by apply getPlugin_unknown]. simpl.
    by rewrite newCalls_same.
  - intros ps name config inits w f c1 c2 e m1 Hname Hl Hs.
    erewrite InitPlugin_getPlugin_error; [|done|by eapply getPlugin_split_fails].
    simpl. by rewrite newCalls_none.
  - intros ps name config inits w f c1 c2 m1 m2 plugin e m3 Hname Hl Hs He Hf.
    erewrite InitPlugin_getPlugin_error; [|done|by eapply getPlugin_factory].
    simpl. by rewrite newCalls_app.
  - intros ps name config inits w f c1 c2 m1 m2 Hname Hl Hs He.
    erewrite InitPlugin_found; [|done|by eapply getPlugin_disabled]. simpl.
    rewrite <- (assoc_L (++)). rewrite newCalls_app. simpl.
    rewrite filter_cons_False by (simpl; auto).
    by rewrite filter_initializeCalls.
  - intros ps name config inits w f c1 c2 m1 m2 plugin m3 Hname Hl Hs He Hf.
    erewrite InitPlugin_found; [|done|by eapply getPlugin_factory].
    cbv zeta. cbn [mem trace snd].
    set (w2 := MkWorld (injectAll inits plugin m3) _).
    assert (Hv : ∃ t, (∀ ev, ev ∈ t → isInitializeCall ev = false) ∧
              (ValidateInitialization plugin w2).2
                = MkWorld (mem (ValidateInitialization plugin w2).2)
                          (trace w2 ++ t)).
    { destruct plugin as [p|]; [|exists []; split;
        [by intros ev ?%elem_of_nil|by rewrite app_nil_r]].
      destruct (InitializationValidator p) as [v|] eqn:Hval.
      - destruct (v (mem w2)) as [verr m'] eqn:Hrun.
        rewrite (ValidateInitialization_with p v w2 verr m' Hval Hrun).
        eexists. split; [|done]. by intros ev ->%list_elem_of_singleton.
      - rewrite (ValidateInitialization_without p w2 Hval).
        exists []. split; [by intros ev ?%elem_of_nil|].
        by rewrite app_nil_r, World_eta. }
    destruct Hv as (t & Ht & Hw3).
    assert (Hnone : filter (λ ev, isInitializeCall ev) t = []).
    { clear Hw3. induction t as [|ev t IH]; [done|].
      rewrite filter_cons_False.
      - apply IH. intros ev' Hev'. apply Ht. by right.
      - rewrite (Ht ev) by left. simpl. auto. }
    split.
    + rewrite Hw3. subst w2. cbn [trace].
      rewrite <- !(assoc_L (++)). rewrite newCalls_app.
      rewrite !filter_app, filter_initializeCalls, Hnone.
      by rewrite app_nil_r.
    + exists w2. split; [done|]. split.
      { subst w2. cbn [trace]. by rewrite <- (assoc_L (++)). }
      split; [done|]. rewrite Hw3. by rewrite newCalls_app.
Qed.

(** C7. When [getPlugin] has instantiated a plugin [p] (found, enabled,
    factory returned [p] and no error), [InitPlugin] first runs the
    initializers on [p].  If [p] implements [InitializationValidator], it
    then calls [ValidateInitialization] on the memory the initializers
    left: an error makes [InitPlugin] return no plugin and the error
    "failed to initialize admission plugin NAME: CAUSE", and a chain
    construction that reaches this name returns that error and no chain;
    nil makes it return [p].  If [p] does not implement the capability,
    [InitPlugin] returns [p] without any such call. *)
Theorem InitPlugin_self_validation ps name config inits w p w1 :
  name ≠ "" →
  getPlugin' ps name config w = (Normal (Some p, true, None), w1) →
  let m2 := injectAll inits (Some p) (mem w1) in
  let t2 := trace w1 ++ initializeCalls 0 (length inits) (Some p) in
  let failure e := errorString
    ("failed to initialize admission plugin " +:+ Quote name +:+ ": "
       +:+ Error e) in
  match InitializationValidator p with
  | Some v =>
      InitPlugin' ps name config inits w =
        (Normal
           match (v m2).1 with
           | Some e => (None, Some (failure e))
           | None => (Some p, None)
           end,
         MkWorld (v m2).2 (t2 ++ [ValidateInitializationCall p (v m2).1])) ∧
      ∀ e provider decorator pre post results w0 wa,
        (v m2).1 = Some e →
        instantiated' ps provider inits pre w0 results wa →
        call (ConfigForCall name) (provider name) wa = ((config, None), w) →
        (NewFromPlugins' ps (pre ++ name :: post) provider inits decorator w0).1
          = Normal (None, Some (failure e))
  | None =>
      InitPlugin' ps name config inits w
        = (Normal (Some p, None), MkWorld m2 t2)
  end.
Proof.
  intros Hname Hg m2 t2 failure.
  pose proof (InitPlugin_found ps name config inits w (Some p) w1 Hname Hg)
    as Hinit. cbv zeta in Hinit. fold m2 t2 in Hinit.
  destruct (InitializationValidator p) as [v|] eqn:Hval.
  - destruct (v m2) as [verr m3] eqn:Hrun.
    rewrite (ValidateInitialization_with p v (MkWorld m2 t2) verr m3 Hval Hrun)
      in Hinit.
    split; [exact Hinit|].
    intros e provider decorator pre post results w0 wa He Hpre Hcfg.
    simpl in He. subst verr.
    erewrite NewFromPlugins_fails; [done|exact Hpre|].
    right. eexists _, _, _. split; [exact Hcfg|]. exact Hinit.
  - by rewrite (ValidateInitialization_without p _ Hval) in Hinit.
Qed.

(** *** The claims about [NewFromPlugins] *)

Lemma chainOf_length decorator results :
  length (chainOf decorator results) = length (chainOf None results).
Proof.
  unfold chainOf. induction results as [|[n [p|]] results IH]; simpl; auto.
Qed.

(** C4. [NewFromPlugins] is all-or-nothing.  If the configuration
    provider or [InitPlugin] fails for a name, after the names before it
    instantiated, the result is no chain and that error, in the world
    where the failure happened.  If every name instantiates, the result
    is no error and the chain of exactly the non-nil plugins, in list
    order, each wrapped by the decorator when there is one.  Whenever
    [NewFromPlugins] returns, one of the two has happened: a chain and an
    error are never returned together, nor is neither.  It always
    returns when the provider hands out no reader held by value;
    otherwise the one other end is a panic while a name is instantiated,
    after the names before it instantiated, and then nothing is returned
    at all. *)
Theorem NewFromPlugins_all_or_nothing ps names provider inits decorator w :
  let res := NewFromPlugins' ps names provider inits decorator w in
  let fails :=
    ∃ e pre name post results w1,
      res.1 = Normal (None, Some e) ∧
      names = pre ++ name :: post ∧
      instantiated' ps provider inits pre w results w1 ∧
      failsAt' ps provider inits name w1 e res.2 in
  let succeeds :=
    ∃ results w1,
      res.1 = Normal (Some (chainOf decorator results), None) ∧
      instantiated' ps provider inits names w results w1 in
  (∀ pre name post results w1 e w',
     names = pre ++ name :: post →
     instantiated' ps provider inits pre w results w1 →
     failsAt' ps provider inits name w1 e w' →
     res = (Normal (None, Some e), w')) ∧
  (∀ results w1,
     instantiated' ps provider inits names w results w1 →
     res.1 = Normal (Some (chainOf decorator results), None) ∧
     mem res.2 = mem w1) ∧
  (∀ chain err, res.1 = Normal (chain, err) → fails ∨ succeeds) ∧
  ((∀ name m kind r, (provider name m).1.1 ≠ valueReader kind r) →
   fails ∨ succeeds) ∧
  (fails ∨ succeeds ∨
   ∃ msg pre name post results w1,
     res.1 = Panic msg ∧
     names = pre ++ name :: post ∧
     instantiated' ps provider inits pre w results w1 ∧
     panicsAt' ps provider inits name w1 msg res.2).
Proof.
  intros res fails succeeds.
  assert (Hends : fails ∨ succeeds ∨
    ∃ msg pre name post results w1,
      res.1 = Panic msg ∧
      names = pre ++ name :: post ∧
      instantiated' ps provider inits pre w results w1 ∧
      panicsAt' ps provider inits name w1 msg res.2).
  { subst res fails succeeds.
    destruct (instantiated_or_fails ps provider inits names w)
      as [(results & w' & Hall)
         |[(pre & n & post & results & w1 & e & w' & -> & Hpre & Hfail)
          |(pre & n & post & results & w1 & msg & w' & -> & Hpre & Hpanic)]].
    - right. left. exists results, w'. split; [|done].
      by erewrite NewFromPlugins_succeeds.
    - left. exists e, pre, n, post, results, w1.
      erewrite NewFromPlugins_fails by done. done.
    - right. right. exists msg, pre, n, post, results, w1.
      erewrite NewFromPlugins_panics by done. done. }
  split; [|split; [|split; [|split]]]; [| | | |exact Hends].
  - subst res. intros pre name post results w1 e w' -> Hpre Hfail.
    by eapply NewFromPlugins_fails.
  - subst res. intros results w1 Hall. by erewrite NewFromPlugins_succeeds.
  - intros chain err Hres.
    destruct Hends as [?|[?|(msg & pre & n & post & results & w1 & Hp & _)]];
      [tauto|tauto|congruence].
  - intros Hprovider.
    destruct Hends as [?|[?|(msg & pre & n & post & results & w1 & _ & _ & _
                             & cfg & w2 & Hcfg & Hinit)]];
      [tauto|tauto|].
    destruct (InitPlugin_Panic _ _ _ _ _ _ _ Hinit)
      as (_ & _ & kind & r & -> & _).
    unfold call in Hcfg.
    destruct (provider n (mem w1)) as [res1 m1] eqn:Hrun.
    injection Hcfg as Hres _. subst res1.
    exfalso. apply (Hprovider n (mem w1) kind r). by rewrite Hrun.
Qed.

(** C10. With a decorator, what enters the chain is the wrapper the
    decorator returns for each non-nil plugin, while the two tallies that
    [klog] reports list the names whose undecorated plugin implements
    [MutationInterface], respectively [ValidationInterface].  Whatever
    the wrappers implement, the tallies, the error and the final world
    are those of the construction without decorator, and the chains have
    the same length. *)
Theorem NewFromPlugins_classifies_undecorated ps names provider inits w :
  (∀ (Decorate : Interface' → string → Interface') results w1,
     instantiated' ps provider inits names w results w1 →
     NewFromPlugins' ps names provider inits (Some Decorate) w =
     (Normal (Some (omap (λ r, (λ p, Decorate p r.1) <$> r.2) results), None),
      MkWorld (mem w1)
        (trace w1 ++
           loadedLines
             (namesWith (λ p, implements (MutationInterface p)) results)
             (namesWith (λ p, implements (ValidationInterface p)) results)))) ∧
  (∀ decorator,
     let res := NewFromPlugins' ps names provider inits decorator w in
     let res0 := NewFromPlugins' ps names provider inits None w in
     res.2 = res0.2 ∧
     mapOutcome snd res.1 = mapOutcome snd res0.1 ∧
     mapOutcome (λ r, length <$> r.1) res.1
       = mapOutcome (λ r, length <$> r.1) res0.1).
Proof.
  split.
  - intros Decorate results w1 Hall.
    by rewrite (NewFromPlugins_succeeds _ _ _ (Some Decorate) _ _ _ _ Hall).
  - intros decorator res res0. subst res res0.
    destruct (instantiated_or_fails ps provider inits names w)
      as [(results & w' & Hall)
         |[(pre & n & post & results & w1 & e & w' & -> & Hpre & Hfail)
          |(pre & n & post & results & w1 & msg & w' & -> & Hpre & Hpanic)]].
    + rewrite !(NewFromPlugins_succeeds _ _ _ _ _ _ _ _ Hall). simpl.
      split; [done|]. split; [done|].
      change (Normal (Some (length (chainOf decorator results)))
              = Normal (Some (length (chainOf None results)))).
      do 2 f_equal. apply chainOf_length.
    + by rewrite !(NewFromPlugins_fails _ _ _ _ _ _ _ _ _ _ _ _ Hpre Hfail).
    + by rewrite !(NewFromPlugins_panics _ _ _ _ _ _ _ _ _ _ _ _ Hpre Hpanic).
Qed.

End plugins.

(** ** The claims on the concrete instance *)

(** On a Create request the example chain invokes P1, then P4, whose
    error ends the pass: P1 at position 4 is never reached. *)
Lemma chain_Admit_fail_fast_witness :
  ∃ calls calls0 i,
    trace (chainAdmissionHandler_Admit ex_GetOperation ex_chain Create tt
             ex_world).2
      = map (λ c, AdmitCall c.1 c.2) calls ∧
    calls = calls0 ++ [(i, Some (errorString "quota exceeded"))].
Proof.
  destruct (chain_Admit_fail_fast ex_GetOperation ex_chain Create tt ex_world)
    as (calls & Htr & _ & _ & _ & (calls0 & i & Hcalls & _)).
  exists calls, calls0, i. split; [exact Htr|exact Hcalls].
Defined.

(** On a Create request the validation pass invokes P2 alone, which
    rejects. *)
Lemma chain_Validate_fail_fast_witness :
  ∃ calls calls0 i,
    trace (chainAdmissionHandler_Validate ex_GetOperation ex_chain Create tt
             ex_world).2
      = map (λ c, ValidateCall c.1 c.2) calls ∧
    calls = calls0 ++ [(i, Some (errorString "denied"))] ∧
    0 ∉ calls.*1.
Proof.
  destruct (chain_Validate_fail_fast ex_GetOperation ex_chain Create tt ex_world)
    as (calls & Htr & _ & _ & _ & Hnot & (calls0 & i & Hcalls & _)).
  exists calls, calls0, i. split; [exact Htr|]. split; [exact Hcalls|].
  apply (Hnot 0 ex_P1); reflexivity.
Defined.

(** Splitting a stream of two bytes. *)
Lemma splitStream_faithful_duplicator_witness :
  ∃ r1 r2 m1,
    splitStream (ptrReader 0) ex_mem_config
      = (Normal (ptrReader r1, ptrReader r2, None), m1) ∧
    r1 ≠ r2 ∧
    toRead r1 m1 = [Byte.x61; Byte.x62] ∧ toRead r2 m1 = [Byte.x61; Byte.x62].
Proof.
  destruct (@splitStream_faithful_duplicator Journal) as (_ & _ & Hsplit & _).
  destruct (Hsplit ex_mem_config 0) as (r1 & r2 & m1 & Hs & Hne & H1 & H2 & _);
    [exact I|reflexivity|].
  exists r1, r2, m1. split; [exact Hs|]. split; [exact Hne|].
  split; [exact H1|exact H2].
Defined.

(** The same stream of two bytes held by value, as [ioutil.NopCloser]
    hands it out: it is live and would read without error, and yet no
    readers come back. *)
Lemma splitStream_value_reader_counterexample :
  ¬ (okReader 0 ex_mem_config → finalErr 0 ex_mem_config = None →
     toRead 0 ex_mem_config = [Byte.x61; Byte.x62] →
     ∃ c1 c2 m1,
       splitStream (valueReader reflect_Struct 0) ex_mem_config
         = (Normal (c1, c2, None), m1)).
Proof.
  intros Hclaim.
  destruct (Hclaim I eq_refl eq_refl) as (c1 & c2 & m1 & Hsplit).
  discriminate Hsplit.
Qed.

(** A factory that fails. *)
Lemma InitPlugin_outcomes_witness :
  (InitPlugin ex_Quote ex_enabled ex_Plugins "broken" nilReader
     [ex_initializer] ex_world).1
  = Normal (None, Some (errorString
       ("couldn't init admission plugin " +:+ ex_Quote "broken"
          +:+ ": bad configuration"))).
Proof.
  destruct (InitPlugin_outcomes (Attributes := Operation) (ObjectInterfaces := unit)
              ex_Quote ex_enabled) as (_ & _ & _ & Hfactory & _).
  eapply (Hfactory ex_Plugins "broken" nilReader [ex_initializer] ex_world
            ex_failing_factory nilReader nilReader ex_mem ex_mem None
            (errorString "bad configuration"));
    [discriminate|reflexivity..].
Defined.

(** A disabled name: the initializer is called, on the nil plugin. *)
Lemma InitPlugin_initializers_witness :
  filter (λ ev, isInitializeCall ev)
    (newCalls ex_world
       (InitPlugin ex_Quote ex_disabled ex_Plugins "mutator" nilReader
          [ex_initializer] ex_world).2)
  = [InitializeCall 0 None].
Proof.
  destruct (InitPlugin_initializers (Attributes := Operation)
              (ObjectInterfaces := unit) ex_Quote ex_disabled)
    as (_ & _ & _ & _ & Hdisabled & _).
  eapply (Hdisabled ex_Plugins "mutator" nilReader [ex_initializer] ex_world
            (ex_factory ex_P1) nilReader nilReader ex_mem ex_mem);
    [discriminate|reflexivity..].
Defined.

(** The claim that initializers are not invoked for a disabled name
    fails on the same input. *)
Lemma InitPlugin_initializers_counterexample :
  ¬ (registry_lookup ex_Plugins "mutator" = Some (ex_factory ex_P1) →
     ex_disabled "mutator" nilReader ex_mem = (false, ex_mem) →
     filter (λ ev, isInitializeCall ev)
       (newCalls ex_world
          (InitPlugin ex_Quote ex_disabled ex_Plugins "mutator" nilReader
             [ex_initializer] ex_world).2)
     = []).
Proof.
  intros Hclaim. specialize (Hclaim eq_refl eq_refl).
  vm_compute in Hclaim. discriminate Hclaim.
Qed.

(** A name list whose second name is unknown: no chain. *)
Lemma NewFromPlugins_all_or_nothing_witness :
  (NewFromPlugins ex_Quote ex_enabled ex_Plugins ["mutator"; "nope"]
     ex_provider [ex_initializer] None ex_world).1
  = Normal (None, Some (errorString "unknown admission plugin: nope")).
Proof.
  destruct (NewFromPlugins_all_or_nothing ex_Quote ex_enabled ex_Plugins
              ["mutator"; "nope"] ex_provider [ex_initializer] None ex_world)
    as (Hfails & _).
  erewrite (Hfails ["mutator"] "nope" [] [("mutator", Some ex_P1)]);
    [reflexivity|reflexivity| |].
  - eapply instantiated_cons; [reflexivity|reflexivity|apply instantiated_nil].
  - right. eexists _, _, _. split; reflexivity.
Defined.

(** A plugin whose self-validation fails after injection. *)
Lemma InitPlugin_self_validation_witness :
  InitPlugin ex_Quote ex_enabled ex_Plugins "strict" nilReader
    [ex_initializer] ex_world
  = (Normal (None, Some (errorString
       ("failed to initialize admission plugin " +:+ ex_Quote "strict"
          +:+ ": missing informer factory"))),
     MkWorld (MkMem ["factory"; "Initialize"; "P5.ValidateInitialization"] [] [])
       [PluginEnabledFnCall "strict" nilReader true;
        FactoryCall "strict" nilReader (Some ex_P5, None);
        InitializeCall 0 (Some ex_P5);
        ValidateInitializationCall ex_P5
          (Some (errorString "missing informer factory"))]).
Proof.
  assert (Hname : "strict" ≠ "") by discriminate.
  exact (proj1 (InitPlugin_self_validation ex_Quote ex_enabled ex_Plugins
                  "strict" nilReader [ex_initializer] ex_world ex_P5
                  (getPlugin ex_enabled ex_Plugins "strict" nilReader ex_world).2
                  Hname eq_refl)).
Defined.

(** Registering a registered name is fatal. *)
Lemma Register_duplicate_fatal_witness :
  Register ex_Quote ex_Plugins "strict" ex_failing_factory
  = Fatal ("Admission plugin " +:+ ex_Quote "strict" +:+ " was registered twice").
Proof.
  destruct (Register_duplicate_fatal (S := Journal) (Attributes := Operation)
              (ObjectInterfaces := unit) ex_Quote) as (Hdup & _).
  apply Hdup. exists (ex_factory ex_P5). reflexivity.
Defined.

(** Two orders of registration, one listing. *)
Lemma Registered_sorted_set_witness :
  ∃ ps ps',
    registerAll ex_Quote [("b", ex_failing_factory); ("a", ex_factory ex_P1)]
      NewPlugins = Returns ps ∧
    registerAll ex_Quote [("a", ex_factory ex_P1); ("b", ex_failing_factory)]
      NewPlugins = Returns ps' ∧
    Registered ps = sort_Strings ["b"; "a"] ∧ Registered ps' = Registered ps.
Proof.
  destruct (Registered_sorted_set (S := Journal) (Attributes := Operation)
              (ObjectInterfaces := unit) ex_Quote) as (_ & Horder).
  eexists _, _. split; [reflexivity|]. split; [reflexivity|].
  apply (Horder [("b", ex_failing_factory); ("a", ex_factory ex_P1)]
                [("a", ex_factory ex_P1); ("b", ex_failing_factory)]);
    [apply perm_swap|reflexivity|reflexivity].
Defined.

(** A decorator whose wrappers implement nothing: the tally still lists
    the mutating plugin. *)
Lemma NewFromPlugins_classifies_undecorated_witness :
  NewFromPlugins ex_Quote ex_enabled ex_Plugins ["mutator"] ex_provider
    [ex_initializer] (Some ex_Decorate) ex_world
  = (Normal (Some [ex_Decorate ex_P1 "mutator"], None),
     MkWorld (MkMem ["factory"; "Initialize"] [] [])
       [ConfigForCall "mutator" (nilReader, None);
        PluginEnabledFnCall "mutator" nilReader true;
        FactoryCall "mutator" nilReader (Some ex_P1, None);
        InitializeCall 0 (Some ex_P1);
        klogInfo "Loaded 1 mutating admission controller(s) successfully in the following order: mutator."]).
Proof.
  destruct (NewFromPlugins_classifies_undecorated ex_Quote ex_enabled ex_Plugins
              ["mutator"] ex_provider [ex_initializer] ex_world)
    as (Hdecorated & _).
  assert (Hall : instantiated ex_Quote ex_enabled ex_Plugins ex_provider
            [ex_initializer] ["mutator"] ex_world [("mutator", Some ex_P1)]
            (MkWorld (MkMem ["factory"; "Initialize"] [] [])
               [ConfigForCall "mutator" (nilReader, None);
                PluginEnabledFnCall "mutator" nilReader true;
                FactoryCall "mutator" nilReader (Some ex_P1, None);
                InitializeCall 0 (Some ex_P1)])).
  { eapply instantiated_cons; [reflexivity|reflexivity|apply instantiated_nil]. }
  exact (Hdecorated ex_Decorate _ _ Hall).
Defined.

(** * Further properties *)

(** ** The chain executor, continued *)

Section chain_more.

Context {S Attributes ObjectInterfaces : Type}.
Context (GetOperation : Attributes → Operation).

Abbreviation Interface2 := (@Interface S Attributes ObjectInterfaces).
Abbreviation Method2 := (@Method S Attributes ObjectInterfaces).
Abbreviation World2 := (@World S Attributes ObjectInterfaces).
Abbreviation Event2 := (@Event S Attributes ObjectInterfaces).
Abbreviation scheme := (chain_from GetOperation).

Implicit Types (cap : Interface2 → option Method2) (ev : nat → error → Event2).
Implicit Types (chain pre post c : list Interface2) (w : World2).
Implicit Types (a : Attributes) (o : ObjectInterfaces) (m : @Mem S).

Lemma chain_Handles_app c1 c2 operation :
  chainAdmissionHandler_Handles (c1 ++ c2) operation =
  chainAdmissionHandler_Handles c1 operation
  || chainAdmissionHandler_Handles c2 operation.
Proof.
  induction c1 as [|h c1 IH]; simpl; [done|].
  by destruct (Handles h operation).
Qed.

Lemma chain_Handles_false chain operation :
  chainAdmissionHandler_Handles chain operation = false ↔
  ∀ h, h ∈ chain → Handles h operation = false.
Proof.
  induction chain as [|h chain IH]; simpl.
  - split; [by intros _ h' ?%elem_of_nil|done].
  - destruct (Handles h operation) eqn:Hh.
    + split; [done|]. intros Hall. rewrite <- Hh. apply Hall. by left.
    + rewrite IH. split.
      * intros Hall h' [->|Hin]%elem_of_cons; auto.
      * intros Hall h' Hin. apply Hall. by right.
Qed.

(** X1. A chain handles an operation exactly when one of its members
    does; hence the empty chain handles nothing, and a concatenation
    handles what either part handles. *)
Theorem chain_Handles_any c1 c2 (operation : Operation) :
  (chainAdmissionHandler_Handles c1 operation = true ↔
   ∃ h : Interface2, h ∈ c1 ∧ Handles h operation = true) ∧
  chainAdmissionHandler_Handles (c1 ++ c2) operation =
    chainAdmissionHandler_Handles c1 operation
    || chainAdmissionHandler_Handles c2 operation.
Proof.
  split; [|apply chain_Handles_app].
  induction c1 as [|h c1 IH]; simpl.
  - split; [done|]. by intros (h & ?%elem_of_nil & _).
  - destruct (Handles h operation) eqn:Hh.
    + split; [|done]. intros _. exists h. split; [by left|done].
    + rewrite IH. split.
      * intros (h' & Hin & Hh'). exists h'. split; [by right|done].
      * intros (h' & [->|Hin]%elem_of_cons & Hh'); [congruence|eauto].
Qed.

Lemma scheme_unhandled cap ev i chain a o w :
  chainAdmissionHandler_Handles chain (GetOperation a) = false →
  scheme cap ev i chain a o w = (None, w).
Proof.
  revert i. induction chain as [|h chain IH]; intros i; simpl; [done|].
  destruct (Handles h (GetOperation a)); [done|]. simpl. apply IH.
Qed.

(** X2. When the chain does not handle the request's operation, [Admit]
    and [Validate] return nil without calling any member: the world is
    as before.  A caller may skip the chain on [Handles] false. *)
Theorem chain_unhandled_noop chain a o w :
  chainAdmissionHandler_Handles chain (GetOperation a) = false →
  chainAdmissionHandler_Admit GetOperation chain a o w = (None, w) ∧
  chainAdmissionHandler_Validate GetOperation chain a o w = (None, w).
Proof.
  intros Hno. unfold chainAdmissionHandler_Admit, chainAdmissionHandler_Validate.
  rewrite Admit_from_scheme, Validate_from_scheme.
  split; by apply scheme_unhandled.
Qed.

(** A pass over a concatenation is the pass over the first part, and,
    unless that returned an error, the pass over the second part in the
    world it left. *)
Lemma scheme_app cap ev i c1 c2 a o w :
  scheme cap ev i (c1 ++ c2) a o w =
  match (scheme cap ev i c1 a o w).1 with
  | Some e => (Some e, (scheme cap ev i c1 a o w).2)
  | None => scheme cap ev (i + length c1) c2 a o (scheme cap ev i c1 a o w).2
  end.
Proof.
  revert i w. induction c1 as [|h c1 IH]; intros i w.
  - simpl. by rewrite Nat.add_0_r.
  - cbn [app chain_from length]. rewrite Nat.add_succ_r.
    destruct (negb _); [apply IH|].
    destruct (cap h) as [f|]; [|apply IH].
    unfold bind. destruct (call _ _ w) as [[e|] w1]; [done|apply IH].
Qed.

(** X3. Passes compose: [Admit] over a concatenation of chains is
    [Admit] over the first and then, only if that returned nil, the loop
    over the second, continuing in the world the first left; likewise
    for [Validate].  An error of the first part is final. *)
Theorem chain_passes_compose i c1 c2 a o w :
  Admit_from GetOperation i (c1 ++ c2) a o w =
    match (Admit_from GetOperation i c1 a o w).1 with
    | Some e => (Some e, (Admit_from GetOperation i c1 a o w).2)
    | None => Admit_from GetOperation (i + length c1) c2 a o
                (Admit_from GetOperation i c1 a o w).2
    end ∧
  Validate_from GetOperation i (c1 ++ c2) a o w =
    match (Validate_from GetOperation i c1 a o w).1 with
    | Some e => (Some e, (Validate_from GetOperation i c1 a o w).2)
    | None => Validate_from GetOperation (i + length c1) c2 a o
                (Validate_from GetOperation i c1 a o w).2
    end.
Proof.
  rewrite !Admit_from_scheme, !Validate_from_scheme.
  split.
  - rewrite scheme_app. by destruct (scheme _ _ i c1 a o w) as [[e|] w1].
  - rewrite scheme_app. by destruct (scheme _ _ i c1 a o w) as [[e|] w1].
Qed.

(** What a pass returns and leaves in memory depends neither on the
    trace so far nor on how its calls are recorded. *)
Lemma scheme_observe cap ev ev' i i' chain a o w w' :
  mem w = mem w' →
  observe (scheme cap ev i chain a o w) = observe (scheme cap ev' i' chain a o w').
Proof.
  revert i i' w w'. induction chain as [|h chain IH]; intros i i' w w' Hm.
  - unfold observe. simpl. by rewrite Hm.
  - cbn [chain_from]. destruct (negb _); [by apply IH|].
    destruct (cap h) as [f|]; [|by apply IH].
    unfold bind, call. rewrite Hm.
    destruct (f a o (mem w')) as [[e|] m1]; [done|]. by apply IH.
Qed.

Lemma observe_scheme_app cap ev i c1 c2 a o w :
  observe (scheme cap ev i (c1 ++ c2) a o w) =
  match observe (scheme cap ev i c1 a o w) with
  | (Some e, m1) => (Some e, m1)
  | (None, m1) => observe (scheme cap ev 0 c2 a o (MkWorld m1 []))
  end.
Proof.
  rewrite scheme_app. unfold observe at 2.
  destruct (scheme cap ev i c1 a o w) as [[e|] w1]; [done|]. simpl.
  by apply scheme_observe.
Qed.

(** A chain that is a member of a chain acts as its members would in
    its place. *)
Lemma scheme_nested cap ev c f a o w :
  cap (chainAsInterface GetOperation c) = Some f →
  (∀ m, f a o m = observe (scheme cap ev 0 c a o (MkWorld m []))) →
  observe (scheme cap ev 0 [chainAsInterface GetOperation c] a o w) =
  observe (scheme cap ev 0 c a o w).
Proof.
  intros Hcap Hf. cbn [chain_from]. rewrite Hcap.
  change (Handles (chainAsInterface GetOperation c) (GetOperation a))
    with (chainAdmissionHandler_Handles c (GetOperation a)).
  destruct (chainAdmissionHandler_Handles c (GetOperation a)) eqn:Hh; simpl.
  - unfold bind, call. rewrite Hf.
    rewrite (scheme_observe cap ev ev 0 0 c a o (MkWorld (mem w) []) w) by done.
    unfold observe.
    destruct (scheme cap ev 0 c a o w) as [[e|] w1]; done.
  - by rewrite scheme_unhandled.
Qed.

Lemma scheme_flatten cap ev pre c post f a o w :
  cap (chainAsInterface GetOperation c) = Some f →
  (∀ m, f a o m = observe (scheme cap ev 0 c a o (MkWorld m []))) →
  observe (scheme cap ev 0 (pre ++ chainAsInterface GetOperation c :: post) a o w) =
  observe (scheme cap ev 0 (pre ++ c ++ post) a o w).
Proof.
  intros Hcap Hf.
  change (chainAsInterface GetOperation c :: post) with ([chainAsInterface GetOperation c] ++ post).
  rewrite (observe_scheme_app cap ev 0 pre).
  rewrite (observe_scheme_app cap ev 0 pre (c ++ post)).
  destruct (observe (scheme cap ev 0 pre a o w)) as [[e|] m1]; [done|].
  rewrite !observe_scheme_app.
  by rewrite (scheme_nested cap ev c f a o _ Hcap Hf).
Qed.

(** X4. Nesting is flattening.  A chain placed as a member of another
    chain (it implements [Handles], [Admit] and [Validate]) makes that
    chain return the same error and leave the same memory, for [Admit]
    and for [Validate], as the chain with the members spliced in its
    place, and both handle the same operations. *)
Theorem chain_nesting_flattens pre c post a o w :
  observe (chainAdmissionHandler_Admit GetOperation
             (pre ++ chainAsInterface GetOperation c :: post) a o w)
  = observe (chainAdmissionHandler_Admit GetOperation (pre ++ c ++ post) a o w) ∧
  observe (chainAdmissionHandler_Validate GetOperation
             (pre ++ chainAsInterface GetOperation c :: post) a o w)
  = observe (chainAdmissionHandler_Validate GetOperation (pre ++ c ++ post) a o w) ∧
  ∀ operation,
    chainAdmissionHandler_Handles
      (pre ++ chainAsInterface GetOperation c :: post) operation
    = chainAdmissionHandler_Handles (pre ++ c ++ post) operation.
Proof.
  unfold chainAdmissionHandler_Admit, chainAdmissionHandler_Validate.
  rewrite !Admit_from_scheme, !Validate_from_scheme.
  split; [|split].
  - eapply scheme_flatten; [done|]. intros m. unfold asMethod.
    unfold chainAdmissionHandler_Admit. by rewrite Admit_from_scheme.
  - eapply scheme_flatten; [done|]. intros m. unfold asMethod.
    unfold chainAdmissionHandler_Validate. by rewrite Validate_from_scheme.
  - intros operation.
    change (chainAsInterface GetOperation c :: post)
      with ([chainAsInterface GetOperation c] ++ post).
    rewrite !chain_Handles_app. f_equal. f_equal. simpl.
    by destruct (chainAdmissionHandler_Handles c operation).
Qed.

End chain_more.

(** ** Plugin instantiation, continued *)

Section plugins_more.

Context {S Attributes ObjectInterfaces : Type}.
Context (Quote : string → string).
Context (PluginEnabledFn : @PluginEnabledFunc S).

Abbreviation Interface3 := (@Interface S Attributes ObjectInterfaces).
Abbreviation World3 := (@World S Attributes ObjectInterfaces).
Abbreviation Plugins3 := (@Plugins S Attributes ObjectInterfaces).
Abbreviation Initializers3 := (@PluginInitializers S Attributes ObjectInterfaces).
Abbreviation getPlugin3 := (getPlugin PluginEnabledFn).
Abbreviation InitPlugin3 := (InitPlugin Quote PluginEnabledFn).
Abbreviation NewFromPlugins3 := (NewFromPlugins Quote PluginEnabledFn).
Abbreviation instantiated3 := (instantiated Quote PluginEnabledFn).
Abbreviation failsAt3 := (failsAt Quote PluginEnabledFn).
Abbreviation panicsAt3 := (panicsAt Quote PluginEnabledFn).

Implicit Types (ps : Plugins3) (name : string) (config : ioReader).
Implicit Types (inits : Initializers3) (w : World3).
Implicit Types (plugin : option Interface3) (p : Interface3).
Implicit Types (names pre post : list string).
Implicit Types (provider : @ConfigProvider S).
Implicit Types (decorator : @Decorator S Attributes ObjectInterfaces).
Implicit Types (results : list (string * option Interface3)).

(** The ways through [getPlugin], exhaustively. *)
Lemma getPlugin_cases ps name config w :
  (registry_lookup ps name = None ∧
   getPlugin3 ps name config w = (Normal (None, false, None), w)) ∨
  (∃ f c1 c2 e m1,
     registry_lookup ps name = Some f ∧
     getPlugin3 ps name config w
       = (Normal (None, true, Some e), MkWorld m1 (trace w)) ∧
     splitStream config (mem w) = (Normal (c1, c2, Some e), m1)) ∨
  (∃ f c1 c2 m1 m2,
     registry_lookup ps name = Some f ∧
     getPlugin3 ps name config w =
       (Normal (None, true, None),
        MkWorld m2 (trace w ++ [PluginEnabledFnCall name c1 false])) ∧
     splitStream config (mem w) = (Normal (c1, c2, None), m1) ∧
     PluginEnabledFn name c1 m1 = (false, m2)) ∨
  (∃ f c1 c2 m1 m2 plugin err m3,
     registry_lookup ps name = Some f ∧
     getPlugin3 ps name config w =
       (Normal (plugin, true, err),
        MkWorld m3 (trace w ++ [PluginEnabledFnCall name c1 true;
                                FactoryCall name c2 (plugin, err)])) ∧
     splitStream config (mem w) = (Normal (c1, c2, None), m1) ∧
     PluginEnabledFn name c1 m1 = (true, m2) ∧
     f c2 m2 = ((plugin, err), m3)) ∨
  (∃ f kind r,
     registry_lookup ps name = Some f ∧
     config = valueReader kind r ∧
     getPlugin3 ps name config w = (Panic (reflect_IsNil_panic kind), w)).
Proof.
  destruct (registry_lookup ps name) as [f|] eqn:Hl;
    [|left; split; [done|by apply getPlugin_unknown]].
  right.
  destruct (splitStream config (mem w)) as [[[[c1 c2] [e|]]|msg] m1] eqn:Hs.
  { left. exists f, c1, c2, e, m1. split; [done|]. split; [|done].
    by eapply getPlugin_split_fails. }
  2:{ do 3 right.
      destruct (splitStream_Panic _ _ _ _ Hs) as (kind & r & -> & -> & ->).
      exists f, kind, r. split; [done|]. split; [done|].
      erewrite getPlugin_split_panics by done. by rewrite World_eta. }
  right.
  destruct (PluginEnabledFn name c1 m1) as [[|] m2] eqn:He.
  - right. left. destruct (f c2 m2) as [[plugin err] m3] eqn:Hf.
    exists f, c1, c2, m1, m2, plugin, err, m3.
    split; [done|]. split; [|done]. by eapply getPlugin_factory.
  - left. exists f, c1, c2, m1, m2. split; [done|]. split; [|done].
    by eapply getPlugin_disabled.
Qed.

(** X5. The three-way result of [getPlugin].  [found] is false exactly
    for a name that is not registered, and then nothing is returned and
    nothing happens.  The factory is called at most once, only after the
    enablement predicate was asked once and said yes, and what it returns
    (plugin and error, both possibly set) is returned as it is; in every
    other case no plugin is returned.  [getPlugin] panics exactly for a
    registered name whose configuration is a reader held by value, and
    it has called nobody by then. *)
Theorem getPlugin_three_way ps name config w :
  let res := getPlugin3 ps name config w in
  (registry_lookup ps name = None ↔
   ∃ plugin err, res.1 = Normal (plugin, false, err)) ∧
  (∀ plugin err, res.1 = Normal (plugin, false, err) →
     plugin = None ∧ err = None ∧ res.2 = w) ∧
  ((∃ msg, res.1 = Panic msg) ↔
   is_Some (registry_lookup ps name) ∧ ∃ kind r, config = valueReader kind r) ∧
  ((newCalls w res.2 = [] ∧
    ∀ plugin found err, res.1 = Normal (plugin, found, err) → plugin = None) ∨
   (∃ c1, newCalls w res.2 = [PluginEnabledFnCall name c1 false] ∧
          res.1 = Normal (None, true, None)) ∨
   (∃ c1 c2 plugin err,
      newCalls w res.2 = [PluginEnabledFnCall name c1 true;
                          FactoryCall name c2 (plugin, err)] ∧
      res.1 = Normal (plugin, true, err))).
Proof.
  intros res. subst res.
  assert (Hvalue : ∀ c1 c2 err m1,
            splitStream config (mem w) = (Normal (c1, c2, err), m1) →
            ¬ ∃ kind r, config = valueReader kind r).
  { intros c1 c2 err m1 Hs (kind & r & ->). done. }
  destruct (getPlugin_cases ps name config w)
    as [[Hl ->]
       |[(f & c1 & c2 & e & m1 & Hl & -> & Hs)
        |[(f & c1 & c2 & m1 & m2 & Hl & -> & Hs & _)
         |[(f & c1 & c2 & m1 & m2 & plugin & err & m3 & Hl & -> & Hs & _)
          |(f & kind & r & Hl & -> & ->)]]]];
    rewrite Hl; cbn [fst snd].
  - split; [split; [eauto|done]|]. split; [by intros ?? [= <- <-]|].
    split; [split; [by intros [? ?]|by intros [[? [=]] _]]|].
    left. rewrite newCalls_same. split; [done|]. by intros ??? [= <- _ _].
  - split; [split; [done|by intros (? & ? & [=])]|]. split; [done|].
    split; [split; [by intros [? ?]|intros [_ Hv]; by destruct (Hvalue _ _ _ _ Hs)]|].
    left. rewrite newCalls_none. split; [done|]. by intros ??? [= <- _ _].
  - split; [split; [done|by intros (? & ? & [=])]|]. split; [done|].
    split; [split; [by intros [? ?]|intros [_ Hv]; by destruct (Hvalue _ _ _ _ Hs)]|].
    right. left. exists c1. by rewrite newCalls_app.
  - split; [split; [done|by intros (? & ? & [=])]|]. split; [done|].
    split; [split; [by intros [? ?]|intros [_ Hv]; by destruct (Hvalue _ _ _ _ Hs)]|].
    right. right. exists c1, c2, plugin, err. by rewrite newCalls_app.
  - split; [split; [done|by intros (? & ? & [=])]|]. split; [done|].
    split; [split; eauto|].
    left. by rewrite newCalls_same.
Qed.

(** What [InitPlugin] has done when it returns a plugin. *)
Lemma InitPlugin_returns_plugin ps name config inits w p err w' :
  InitPlugin3 ps name config inits w = (Normal (Some p, err), w') →
  err = None ∧
  ∃ c1 c2,
    trace w' = trace w ++
      [PluginEnabledFnCall name c1 true; FactoryCall name c2 (Some p, None)]
      ++ initializeCalls 0 (length inits) (Some p)
      ++ match InitializationValidator p with
         | Some _ => [ValidateInitializationCall p None]
         | None => []
         end.
Proof.
  destruct (decide (name = "")) as [->|Hname].
  { by rewrite InitPlugin_empty. }
  destruct (getPlugin_cases ps name config w)
    as [[Hl Hg]
       |[(f & c1 & c2 & e & m1 & Hl & Hg & _)
        |[(f & c1 & c2 & m1 & m2 & Hl & Hg & _)
         |[(f & c1 & c2 & m1 & m2 & plugin & gerr & m3 & Hl & Hg & _)
          |(f & kind & r & Hl & -> & Hg)]]]].
  5:{ by rewrite (InitPlugin_getPlugin_panics _ _ _ _ _ _ _ _ _ Hname Hg). }
  - by rewrite (InitPlugin_not_found _ _ _ _ _ _ _ _ _ Hname Hg).
  - by rewrite (InitPlugin_getPlugin_error _ _ _ _ _ _ _ _ _ _ _ Hname Hg).
  - rewrite (InitPlugin_found _ _ _ _ _ _ _ _ _ Hname Hg). simpl. done.
  - destruct gerr as [e|].
    { by rewrite (InitPlugin_getPlugin_error _ _ _ _ _ _ _ _ _ _ _ Hname Hg). }
    rewrite (InitPlugin_found _ _ _ _ _ _ _ _ _ Hname Hg). cbv zeta.
    cbn [mem trace].
    destruct plugin as [q|]; [|simpl; done].
    destruct (InitializationValidator q) as [v|] eqn:Hval.
    + set (w2 := MkWorld _ _).
      destruct (v (mem w2)) as [verr m'] eqn:Hrun.
      rewrite (ValidateInitialization_with q v w2 verr m' Hval Hrun). simpl.
      destruct verr as [e|]; [done|]. intros [= -> <- <-]. split; [done|].
      exists c1, c2. rewrite Hval. subst w2. simpl.
      by rewrite <- !(assoc_L (++)).
    + rewrite (ValidateInitialization_without q _ Hval). simpl.
      intros [= -> <- <-]. split; [done|]. exists c1, c2. rewrite Hval.
      simpl. by rewrite app_nil_r, <- !(assoc_L (++)).
Qed.

Lemma filter_klog_initializeCalls k n plugin :
  filter (λ ev, isKlogInfo ev)
    (initializeCalls k n plugin : list (@Event S Attributes ObjectInterfaces))
  = [].
Proof.
  unfold initializeCalls. revert k. induction n as [|n IH]; intros k; [done|].
  simpl. rewrite filter_cons_False by (simpl; auto). apply IH.
Qed.

(** [InitPlugin] only adds to the trace, and it logs nothing but the
    line for an empty name. *)
Lemma InitPlugin_extends ps name config inits w :
  ∃ t, trace (InitPlugin3 ps name config inits w).2 = trace w ++ t ∧
       filter (λ ev, isKlogInfo ev) t
         = if decide (name = "")
           then [klogInfo "No admission plugin specified."] else [].
Proof.
  destruct (decide (name = "")) as [->|Hname].
  { rewrite InitPlugin_empty. simpl. eauto. }
  assert (Hval : ∀ plugin w2,
            ∃ t, trace (ValidateInitialization plugin w2).2 = trace w2 ++ t ∧
                 filter (λ ev, isKlogInfo ev) t = []).
  { intros [q|] w2; [|exists []; by rewrite app_nil_r].
    destruct (InitializationValidator q) as [v|] eqn:Hv.
    - destruct (v (mem w2)) as [verr m'] eqn:Hrun.
      rewrite (ValidateInitialization_with q v w2 verr m' Hv Hrun). simpl. eauto.
    - rewrite (ValidateInitialization_without q w2 Hv).
      exists []. by rewrite app_nil_r. }
  destruct (getPlugin_cases ps name config w)
    as [[Hl Hg]
       |[(f & c1 & c2 & e & m1 & Hl & Hg & _)
        |[(f & c1 & c2 & m1 & m2 & Hl & Hg & _)
         |[(f & c1 & c2 & m1 & m2 & plugin & gerr & m3 & Hl & Hg & _)
          |(f & kind & r & Hl & -> & Hg)]]]].
  - rewrite (InitPlugin_not_found _ _ _ _ _ _ _ _ _ Hname Hg). simpl.
    exists []. by rewrite app_nil_r.
  - rewrite (InitPlugin_getPlugin_error _ _ _ _ _ _ _ _ _ _ _ Hname Hg). simpl.
    exists []. by rewrite app_nil_r.
  - rewrite (InitPlugin_found _ _ _ _ _ _ _ _ _ Hname Hg). simpl.
    rewrite <- (assoc_L (++)). eexists. split; [done|].
    rewrite filter_app, filter_klog_initializeCalls. done.
  - destruct gerr as [e|].
    { rewrite (InitPlugin_getPlugin_error _ _ _ _ _ _ _ _ _ _ _ Hname Hg).
      simpl. eauto. }
    rewrite (InitPlugin_found _ _ _ _ _ _ _ _ _ Hname Hg). cbv zeta.
    cbn [snd].
    match goal with
    | |- context [ValidateInitialization plugin ?w2] =>
        destruct (Hval plugin w2) as (t & Ht & Hklog); rewrite Ht
    end.
    cbn [trace]. rewrite <- !(assoc_L (++)). eexists. split; [done|].
    rewrite !filter_app, filter_klog_initializeCalls, Hklog. done.
  - rewrite (InitPlugin_getPlugin_panics _ _ _ _ _ _ _ _ _ Hname Hg). simpl.
    exists []. by rewrite app_nil_r.
Qed.

(** X6. [InitPlugin] never returns a plugin together with an error,
    even when the factory returned both.  A plugin it returns is the one
    the registered factory returned with a nil error.  An error it
    returns is never a bare cause; it is one of three messages.  It is
    "unknown admission plugin: NAME", for a name that is not registered.
    Or it is "couldn't init admission plugin NAME: CAUSE", where the
    cause is the error with which the configuration stream failed to
    read or the error the factory returned.  Or it is "failed to
    initialize admission plugin NAME: CAUSE", where the cause is the
    error the plugin's [ValidateInitialization] returned. *)
Theorem InitPlugin_plugin_or_error ps name config inits w :
  let res := InitPlugin3 ps name config inits w in
  (∀ p err, res.1 = Normal (Some p, err) →
     err = None ∧
     ∃ c2, FactoryCall name c2 (Some p, None) ∈ newCalls w res.2) ∧
  (∀ plugin e, res.1 = Normal (plugin, Some e) →
     plugin = None ∧
     ((e = errorString ("unknown admission plugin: " +:+ name) ∧
       registry_lookup ps name = None) ∨
      (∃ cause,
         e = errorString ("couldn't init admission plugin " +:+ Quote name
                            +:+ ": " +:+ Error cause) ∧
         ((∃ c1 c2 m1,
             splitStream config (mem w) = (Normal (c1, c2, Some cause), m1)) ∨
          (∃ c2 returned,
             FactoryCall name c2 (returned, Some cause) ∈ newCalls w res.2))) ∨
      (∃ cause p,
         e = errorString ("failed to initialize admission plugin "
                            +:+ Quote name +:+ ": " +:+ Error cause) ∧
         ValidateInitializationCall p (Some cause) ∈ newCalls w res.2))).
Proof.
  intros res. subst res. split.
  - intros p err Hres.
    destruct (InitPlugin3 ps name config inits w) as [res w'] eqn:Hinit.
    simpl in Hres. subst res.
    destruct (InitPlugin_returns_plugin _ _ _ _ _ _ _ _ Hinit)
      as (-> & c1 & c2 & Htr).
    split; [done|]. exists c2. unfold newCalls. simpl.
    rewrite Htr, drop_app_length.
    apply elem_of_cons. right. by left.
  - intros plugin e.
    destruct (decide (name = "")) as [->|Hname].
    { by rewrite InitPlugin_empty. }
    destruct (getPlugin_cases ps name config w)
      as [[Hl Hg]
         |[(f & c1 & c2 & ge & m1 & Hl & Hg & Hs)
          |[(f & c1 & c2 & m1 & m2 & Hl & Hg & _)
           |[(f & c1 & c2 & m1 & m2 & returned & gerr & m3 & Hl & Hg & _)
            |(f & kind & r & Hl & -> & Hg)]]]].
    + rewrite (InitPlugin_not_found _ _ _ _ _ _ _ _ _ Hname Hg).
      intros [= <- <-]. split; [done|]. by left.
    + rewrite (InitPlugin_getPlugin_error _ _ _ _ _ _ _ _ _ _ _ Hname Hg).
      intros [= <- <-]. split; [done|]. right. left. exists ge.
      split; [done|]. left. eauto.
    + by rewrite (InitPlugin_found _ _ _ _ _ _ _ _ _ Hname Hg).
    + destruct gerr as [ge|].
      { rewrite (InitPlugin_getPlugin_error _ _ _ _ _ _ _ _ _ _ _ Hname Hg).
        intros [= <- <-]. split; [done|]. right. left. exists ge.
        split; [done|]. right. exists c2, returned. cbn [snd].
        rewrite newCalls_app. apply elem_of_cons. right. by left. }
      rewrite (InitPlugin_found _ _ _ _ _ _ _ _ _ Hname Hg). cbv zeta.
      cbn [mem trace].
      destruct returned as [q|]; [|done].
      destruct (InitializationValidator q) as [v|] eqn:Hval.
      * set (w2 := MkWorld _ _).
        destruct (v (mem w2)) as [verr m'] eqn:Hrun.
        rewrite (ValidateInitialization_with q v w2 verr m' Hval Hrun).
        cbn [fst snd]. destruct verr as [ve|]; [|done].
        intros [= <- <-]. split; [done|]. right. right. exists ve, q.
        split; [done|]. subst w2. unfold newCalls. cbn [trace].
        rewrite <- !(assoc_L (++)), drop_app_length, !elem_of_app.
        right. right. by left.
      * by rewrite (ValidateInitialization_without q _ Hval).
    + by rewrite (InitPlugin_getPlugin_panics _ _ _ _ _ _ _ _ _ Hname Hg).
Qed.

(** *** Chain construction, continued *)

Lemma instantiated_app ps provider inits names names' w results w1 results' w2 :
  instantiated3 ps provider inits names w results w1 →
  instantiated3 ps provider inits names' w1 results' w2 →
  instantiated3 ps provider inits (names ++ names') w (results ++ results') w2.
Proof.
  induction 1 as [w|name names w cfg wa plugin wb results wc Hcfg Hinit _ IH];
    intros Hrest; [done|].
  simpl. econstructor; eauto.
Qed.

Lemma chainOf_app decorator results results' :
  chainOf decorator (results ++ results')
  = chainOf decorator results ++ chainOf decorator results'.
Proof. unfold chainOf. apply omap_app. Qed.

(** X7. Construction composes.  Once a first list of names has
    instantiated, constructing the chain for that list followed by a
    second list returns the error of constructing the second list alone
    from the world the first left, or else the first list's plugins
    followed by the second list's chain; the memory left is the same. *)
Theorem NewFromPlugins_composes ps provider inits decorator names names'
    w results w1 :
  instantiated3 ps provider inits names w results w1 →
  let res := NewFromPlugins3 ps (names ++ names') provider inits decorator w in
  let res' := NewFromPlugins3 ps names' provider inits decorator w1 in
  mapOutcome snd res.1 = mapOutcome snd res'.1 ∧
  mapOutcome fst res.1
    = mapOutcome
        (λ r, (λ chain', chainOf decorator results ++ chain') <$> r.1) res'.1 ∧
  mem res.2 = mem res'.2.
Proof.
  intros Hfirst res res'. subst res res'.
  destruct (instantiated_or_fails Quote PluginEnabledFn ps provider inits names' w1)
    as [(results' & w2 & Hsecond)
       |[(pre & n & post & results' & wa & e & w' & -> & Hpre & Hfail)
        |(pre & n & post & results' & wa & msg & w' & -> & Hpre & Hpanic)]].
  - rewrite (NewFromPlugins_succeeds _ _ _ _ _ decorator _ _ _ _ Hsecond).
    rewrite (NewFromPlugins_succeeds _ _ _ _ _ decorator _ _ _ _
               (instantiated_app _ _ _ _ _ _ _ _ _ _ Hfirst Hsecond)).
    simpl. by rewrite chainOf_app.
  - rewrite (NewFromPlugins_fails _ _ _ _ _ decorator _ _ _ _ _ _ _ _ Hpre Hfail).
    rewrite (assoc_L (++)).
    by rewrite (NewFromPlugins_fails _ _ _ _ _ decorator _ _ _ _ _ _ _ _
                  (instantiated_app _ _ _ _ _ _ _ _ _ _ Hfirst Hpre) Hfail).
  - rewrite (NewFromPlugins_panics _ _ _ _ _ decorator _ _ _ _ _ _ _ _
               Hpre Hpanic).
    rewrite (assoc_L (++)).
    by rewrite (NewFromPlugins_panics _ _ _ _ _ decorator _ _ _ _ _ _ _ _
                  (instantiated_app _ _ _ _ _ _ _ _ _ _ Hfirst Hpre) Hpanic).
Qed.

(** While a list of names instantiates, the only lines logged are those
    for its empty names. *)
Lemma instantiated_klog ps provider inits names w results w' :
  instantiated3 ps provider inits names w results w' →
  ∃ t, trace w' = trace w ++ t ∧
       filter (λ ev, isKlogInfo ev) t
         = (λ _, klogInfo "No admission plugin specified.")
             <$> filter (λ name, name = "") names.
Proof.
  induction 1 as [w|name names w cfg wa plugin wb results wc Hcfg Hinit _
                    (t & Ht & Hklog)].
  - exists []. by rewrite app_nil_r.
  - assert (Ha : trace wa = trace w ++ [ConfigForCall name (cfg, None)]).
    { unfold call in Hcfg. destruct (provider name (mem w)) as [r m'].
      by injection Hcfg as -> <-. }
    destruct (InitPlugin_extends ps name cfg inits wa) as (tb & Hb & Hlog).
    rewrite Hinit in Hb. simpl in Hb.
    exists ([ConfigForCall name (cfg, None)] ++ tb ++ t). split.
    { by rewrite Ht, Hb, Ha, <- !(assoc_L (++)). }
    rewrite !filter_app, Hlog, Hklog.
    rewrite filter_cons_False by (simpl; auto).
    destruct (decide (name = "")) as [->|Hname].
    + by rewrite filter_cons_True by done.
    + by rewrite filter_cons_False by done.
Qed.

Lemma filter_klog_loadedLines muts vals :
  filter (λ ev, isKlogInfo ev)
    (loadedLines muts vals : list (@Event S Attributes ObjectInterfaces))
  = loadedLines muts vals.
Proof.
  unfold loadedLines.
  destruct (decide (length muts ≠ 0)); destruct (decide (length vals ≠ 0)); done.
Qed.

(** X8. What a successful construction logs, and how chain and tallies
    follow the name list.  When [NewFromPlugins] returns a chain, the
    lines it has logged are one "No admission plugin specified." for
    each empty name of the list, followed by the report of the two
    tallies; each tally lists names of the list in the order of the list
    (it is a sublist of it), holds no empty name, and is no longer than
    the chain; and the chain is no longer than the list has non-empty
    names. *)
Theorem NewFromPlugins_follows_names ps provider inits decorator names w chain :
  let res := NewFromPlugins3 ps names provider inits decorator w in
  res.1 = Normal (Some chain, None) →
  ∃ muts vals,
    filter (λ ev, isKlogInfo ev) (newCalls w res.2)
      = ((λ _, klogInfo "No admission plugin specified.")
           <$> filter (λ name, name = "") names)
        ++ loadedLines muts vals ∧
    muts `sublist_of` filter (λ name, name ≠ "") names ∧
    vals `sublist_of` filter (λ name, name ≠ "") names ∧
    length muts ≤ length chain ∧
    length vals ≤ length chain ∧
    length chain ≤ length (filter (λ name, name ≠ "") names).
Proof.
  intros res. subst res.
  destruct (instantiated_or_fails Quote PluginEnabledFn ps provider inits names w)
    as [(results & w' & Hall)
       |[(pre & n & post & results & wa & e & w' & -> & Hpre & Hfail)
        |(pre & n & post & results & wa & msg & w' & -> & Hpre & Hpanic)]].
  2:{ by rewrite (NewFromPlugins_fails _ _ _ _ _ decorator _ _ _ _ _ _ _ _
                    Hpre Hfail). }
  2:{ by rewrite (NewFromPlugins_panics _ _ _ _ _ decorator _ _ _ _ _ _ _ _
                    Hpre Hpanic). }
  rewrite (NewFromPlugins_succeeds _ _ _ _ _ decorator _ _ _ _ Hall).
  cbn [fst snd]. intros [= <-].
  exists (namesWith (λ p, implements (MutationInterface p)) results),
         (namesWith (λ p, implements (ValidationInterface p)) results).
  destruct (instantiated_klog _ _ _ _ _ _ _ Hall) as (t & Ht & Hklog).
  split.
  { unfold newCalls. cbn [trace].
    rewrite Ht, <- (assoc_L (++)), drop_app_length, filter_app.
    by rewrite Hklog, filter_klog_loadedLines. }
  rewrite (chainOf_length decorator).
  clear Ht Hklog t.
  induction Hall as [w|name names w cfg wa plugin wb results wc Hcfg Hinit _ IH].
  { repeat split; try constructor; simpl; lia. }
  destruct IH as (IHm & IHv & IHlm & IHlv & IHc).
  destruct (decide (name = "")) as [->|Hname].
  - rewrite InitPlugin_empty in Hinit. injection Hinit as <- _.
    rewrite filter_cons_False by (intros Hne; by apply Hne).
    done.
  - rewrite filter_cons_True by done.
    destruct plugin as [p|].
    + unfold namesWith, chainOf. cbn [omap list_omap fmap option_fmap option_map
                                      fst snd length].
      fold (namesWith (λ p, implements (MutationInterface p)) results).
      fold (namesWith (λ p, implements (ValidationInterface p)) results).
      fold (chainOf None results).
      destruct (implements (MutationInterface p));
        destruct (implements (ValidationInterface p)); cbn [length];
        repeat split;
        first [by apply sublist_skip|by apply sublist_cons|lia].
    + change (namesWith (λ p, implements (MutationInterface p))
                ((name, None) :: results))
        with (namesWith (λ p, implements (MutationInterface p)) results).
      change (namesWith (λ p, implements (ValidationInterface p))
                ((name, None) :: results))
        with (namesWith (λ p, implements (ValidationInterface p)) results).
      change (chainOf None ((name, None) :: results))
        with (chainOf None results).
      cbn [length]. repeat split;
        first [by apply sublist_cons|lia].
Qed.

(** The calls made while a list of names instantiates include those
    made for each of its plugins. *)
Lemma instantiated_calls ps provider inits names w results w' :
  instantiated3 ps provider inits names w results w' →
  (∃ t, trace w' = trace w ++ t) ∧
  ∀ name p, (name, Some p) ∈ results →
    (∀ ev, ev ∈ initializeCalls 0 (length inits) (Some p) → ev ∈ newCalls w w') ∧
    (is_Some (InitializationValidator p) →
     ValidateInitializationCall p None ∈ newCalls w w').
Proof.
  induction 1 as [w|name names w cfg wa plugin wb results wc Hcfg Hinit _
                    [[t Ht] IH]].
  - split; [exists []; by rewrite app_nil_r|]. by intros name p ?%elem_of_nil.
  - assert (Ha : trace wa = trace w ++ [ConfigForCall name (cfg, None)]).
    { unfold call in Hcfg. destruct (provider name (mem w)) as [r m'].
      by injection Hcfg as -> <-. }
    destruct (InitPlugin_extends ps name cfg inits wa) as (tb & Hb & _).
    rewrite Hinit in Hb. simpl in Hb.
    assert (Hc : trace wc = trace w ++ [ConfigForCall name (cfg, None)] ++ tb ++ t).
    { by rewrite Ht, Hb, Ha, <- !(assoc_L (++)). }
    split; [eauto|].
    assert (Hnew : newCalls w wc = [ConfigForCall name (cfg, None)] ++ tb ++ t).
    { unfold newCalls. by rewrite Hc, drop_app_length. }
    assert (Hlater : ∀ ev, ev ∈ newCalls wb wc → ev ∈ newCalls w wc).
    { intros ev. rewrite Hnew. unfold newCalls.
      rewrite Ht, drop_app_length, !elem_of_app. auto. }
    assert (Hhere : ∀ ev, ev ∈ tb → ev ∈ newCalls w wc).
    { intros ev. rewrite Hnew, !elem_of_app. auto. }
    intros n p [[= -> <-]|Hin]%elem_of_cons.
    + destruct (InitPlugin_returns_plugin _ _ _ _ _ _ _ _ Hinit)
        as (_ & c1 & c2 & Htr).
      rewrite Hb in Htr. apply app_inv_head in Htr. subst tb.
      split.
      * intros ev Hev. apply Hhere. rewrite !elem_of_app. auto.
      * intros [v Hv]. apply Hhere. rewrite Hv, !elem_of_app.
        right. right. by left.
    + destruct (IH n p Hin) as [Hi Hv]. split; eauto.
Qed.

(** X9. No plugin enters a chain half configured.  Every member of a
    chain that [NewFromPlugins] returns (without decorator) was, during
    the construction, handed to every initializer of the set and, if it
    implements [InitializationValidator], had its
    [ValidateInitialization] called and returning nil. *)
Theorem NewFromPlugins_members_initialized ps names provider inits w chain :
  let res := NewFromPlugins3 ps names provider inits None w in
  res.1 = Normal (Some chain, None) →
  ∀ p, p ∈ chain →
    (∀ k, k < length inits → InitializeCall k (Some p) ∈ newCalls w res.2) ∧
    (is_Some (InitializationValidator p) →
     ValidateInitializationCall p None ∈ newCalls w res.2).
Proof.
  intros res. subst res.
  destruct (instantiated_or_fails Quote PluginEnabledFn ps provider inits names w)
    as [(results & w' & Hall)
       |[(pre & n & post & results & wa & e & w' & -> & Hpre & Hfail)
        |(pre & n & post & results & wa & msg & w' & -> & Hpre & Hpanic)]].
  3:{ by rewrite (NewFromPlugins_panics _ _ _ _ _ None _ _ _ _ _ _ _ _
                    Hpre Hpanic). }
  - rewrite (NewFromPlugins_succeeds _ _ _ _ _ None _ _ _ _ Hall).
    cbn [fst snd]. intros [= <-] p Hp.
    assert (Hin : ∃ name, (name, Some p) ∈ results).
    { unfold chainOf in Hp. apply list_elem_of_omap in Hp
        as ([name [q|]] & Hin & Hq); simpl in Hq; [|done].
      injection Hq as ->. eauto. }
    destruct Hin as [name Hin].
    destruct (instantiated_calls _ _ _ _ _ _ _ Hall) as [[t Ht] Hcalls].
    destruct (Hcalls name p Hin) as [Hi Hv].
    assert (Hmore : ∀ ev, ev ∈ newCalls w w' →
              ev ∈ newCalls w (MkWorld (mem w')
                (trace w' ++ loadedLines
                   (namesWith (λ p, implements (MutationInterface p)) results)
                   (namesWith (λ p, implements (ValidationInterface p)) results)))).
    { intros ev. unfold newCalls. simpl.
      rewrite Ht, <- (assoc_L (++)), !drop_app_length, elem_of_app. auto. }
    split.
    + intros k Hk. apply Hmore, Hi. unfold initializeCalls.
      apply list_elem_of_fmap. exists k. split; [done|].
      apply elem_of_seq. lia.
    + intros Hval. by apply Hmore, Hv.
  - by rewrite (NewFromPlugins_fails _ _ _ _ _ None _ _ _ _ _ _ _ _ Hpre Hfail).
Qed.

End plugins_more.

(** ** The configuration stream, continued *)

Section config_flow.

Context {S Attributes ObjectInterfaces : Type}.

Abbreviation World4 := (@World S Attributes ObjectInterfaces).
Abbreviation Plugins4 := (@Plugins S Attributes ObjectInterfaces).

Implicit Types (m : @Mem S) (r n : nat) (w : World4) (ps : Plugins4).

Lemma ReadAll_loop_kept fuel r acc m :
  okReader r m →
  okReader r (ReadAll_loop fuel r acc m).2 ∧
  finalErr r (ReadAll_loop fuel r acc m).2 = finalErr r m ∧
  sameExcept r m (ReadAll_loop fuel r acc m).2.
Proof.
  revert acc m. induction fuel as [|fuel IH]; intros acc m Hok.
  { simpl. split; [done|]. split; [done|]. apply sameExcept_refl. }
  rewrite ReadAll_loop_S.
  pose proof (Read_sameExcept r MinRead m) as Hsame.
  destruct (Read_step r MinRead m Hok) as (p & err & m1 & HR & Hok1 & _ & Hfin & _).
  rewrite HR in Hsame |- *. simpl in Hsame.
  destruct err as [[|msg]|]; [done..|].
  destruct (IH (acc ++ p) m1 Hok1) as (Hok' & Hfin' & Hsame').
  split; [done|]. split; [congruence|]. by eapply sameExcept_trans.
Qed.

(** What [splitStream] leaves of its input and of the rest of the
    memory. *)
Lemma splitStream_frame r m :
  r < length (objs m) → okReader r m →
  let m1 := (splitStream (ptrReader r) m).2 in
  user m1 = user m ∧
  (∀ r', r' ≠ r → r' < length (objs m) → objs m1 !! r' = objs m !! r') ∧
  r < length (objs m1) ∧ okReader r m1 ∧
  toRead r m1 = [] ∧ finalErr r m1 = finalErr r m.
Proof.
  intros Hr Hok.
  destruct (ReadAll_spec r m Hok) as (m0 & HR & Hu & Ha & Hl & Ho & Hok0 & Hnil).
  assert (Hfin0 : finalErr r m0 = finalErr r m).
  { destruct (ReadAll_loop_kept (Datatypes.S (remaining r m)) r [] m Hok)
      as (_ & Hfin & _).
    revert HR Hfin. unfold ReadAll.
    destruct (ReadAll_loop _ r [] m) as [[bs err] ma]. simpl.
    intros HR Hfin. inversion HR. exact Hfin. }
  unfold splitStream, bind. rewrite HR.
  destruct (finalErr r m) as [e|] eqn:Hfin; simpl.
  { split; [done|]. split; [by intros; apply Ho|]. split; [lia|]. done. }
  assert (Hkeep : ∀ r', r' < length (objs m) →
            ((objs m0 ++ [Buffer (Slice (length (arrays m))
                                    (length (toRead r m))) 0])
               ++ [Buffer (Slice (length (arrays m))
                             (length (toRead r m))) 0]) !! r'
            = objs m0 !! r').
  { intros r' Hr'. rewrite <- (assoc_L (++)). apply lookup_app_l. lia. }
  split; [done|]. split.
  { intros r' Hne Hr'. rewrite Hkeep by done. by apply Ho. }
  split; [rewrite !length_app; lia|].
  unfold okReader, toRead, finalErr, bytesOf in *. simpl.
  rewrite Hkeep by done. done.
Qed.

(** X10. [splitStream] uses up the input it reads.  After splitting a
    live stream held through a pointer, the stream itself has nothing
    left to deliver, while the collaborators' state and every other
    reader object are as before; so splitting the same stream a second
    time, as happens when a provider hands one stream to two plugin
    names, yields two readers that are empty.  The same stream held by
    value is not read at all: the call panics in its nil test and the
    memory is as it was. *)
Theorem splitStream_drains_input r m :
  r < length (objs m) → okReader r m →
  let m1 := (splitStream (ptrReader r) m).2 in
  toRead r m1 = [] ∧
  user m1 = user m ∧
  (∀ r', r' ≠ r → r' < length (objs m) → objs m1 !! r' = objs m !! r') ∧
  (finalErr r m = None →
   ∃ ra rb m2,
     splitStream (ptrReader r) m1
       = (Normal (ptrReader ra, ptrReader rb, None), m2) ∧
     toRead ra m2 = [] ∧ toRead rb m2 = []) ∧
  (∀ kind,
     splitStream (valueReader kind r) m = (Panic (reflect_IsNil_panic kind), m)).
Proof.
  intros Hr Hok m1.
  destruct (splitStream_frame r m Hr Hok) as (Hu & Ho & Hr1 & Hok1 & Hnil & Hfin).
  fold m1 in Hu, Ho, Hr1, Hok1, Hnil, Hfin.
  split; [done|]. split; [done|]. split; [done|]. split; [|done].
  intros Hclean. rewrite Hclean in Hfin.
  destruct (splitStream_ok r m1 Hok1 Hfin)
    as (m2 & Hs & (_ & _ & Ha) & (_ & _ & Hb)).
  eexists _, _, m2. split; [exact Hs|]. by rewrite Ha, Hb, Hnil.
Qed.

Lemma runReads_readers sched m : (runReads sched m).1.*1 = sched.*1.
Proof.
  revert m. induction sched as [|[r n] sched IH]; intros m; [done|].
  rewrite runReads_cons. destruct (Read r n m) as [res m1].
  specialize (IH m1). destruct (runReads sched m1) as [out m2].
  cbn [fst snd] in *. rewrite !fmap_cons. cbn [fst]. by rewrite IH.
Qed.

Lemma deliveredBy_other r (out : list (nat * list byte)) :
  r ∉ out.*1 → deliveredBy r out = [].
Proof.
  induction out as [|[r0 p] out IH]; [done|].
  rewrite fmap_cons, not_elem_of_cons. simpl. intros [Hne Hout].
  rewrite deliveredBy_cons, decide_False by done. auto.
Qed.

(** X11. The factory gets the whole configuration.  For a registered
    name and a configuration stream held through a pointer that reads
    without error, however much of its copy an enablement predicate that
    says yes has read, the factory is called with the other copy while
    that copy still holds every byte of the stream; what the factory
    returns is what [getPlugin] returns.  The default predicate is the
    one that reads nothing.  For the same stream held by value the
    factory gets nothing: [getPlugin] panics before it asks the predicate
    or calls the factory. *)
Theorem factory_gets_whole_config ps name f r lengths w :
  registry_lookup ps name = Some f →
  okReader r (mem w) → finalErr r (mem w) = None →
  (∃ r1 r2 m2,
     r1 ≠ r2 ∧ okReader r2 m2 ∧ toRead r2 m2 = toRead r (mem w) ∧
     getPlugin (readingPredicate lengths true) ps name (ptrReader r) w =
       (Normal ((f (ptrReader r2) m2).1.1, true, (f (ptrReader r2) m2).1.2),
        MkWorld (f (ptrReader r2) m2).2
          (trace w ++ [PluginEnabledFnCall name (ptrReader r1) true;
                       FactoryCall name (ptrReader r2) (f (ptrReader r2) m2).1]))) ∧
  getPlugin defaultPluginEnabledFn ps name (ptrReader r) w =
  getPlugin (readingPredicate [] true) ps name (ptrReader r) w ∧
  (∀ kind,
     getPlugin (readingPredicate lengths true) ps name (valueReader kind r) w
       = (Panic (reflect_IsNil_panic kind), w)).
Proof.
  intros Hl Hok Hfin. split; [|split].
  3:{ intros kind. erewrite getPlugin_split_panics by done.
      by rewrite World_eta. }
  - destruct (splitStream_ok r (mem w) Hok Hfin)
      as (m1 & Hs & (Hok1 & _ & Ht1) & (Hok2 & _ & Ht2)).
    set (r1 := length (objs (mem w))) in *.
    set (r2 := Datatypes.S (length (objs (mem w)))) in *.
    set (sched := (λ n, (r1, n)) <$> lengths).
    destruct (runReads_reader r2 sched m1 Hok2) as (Hok2' & _ & Hd).
    pose proof (runReads_readers sched m1) as Hreaders.
    destruct (runReads sched m1) as [out m2] eqn:Hrun. cbn [fst snd] in *.
    assert (Hnone : deliveredBy r2 out = []).
    { apply deliveredBy_other. rewrite Hreaders. subst sched.
      rewrite <- list_fmap_compose. intros (n & Hn & _)%list_elem_of_fmap.
      simpl in Hn. subst r1 r2. lia. }
    rewrite Hnone in Hd. simpl in Hd.
    exists r1, r2, m2. split; [subst r1 r2; lia|]. split; [done|].
    split; [rewrite Hd; exact Ht2|].
    destruct (f (ptrReader r2) m2) as [[plugin err] m3] eqn:Hf. cbn [fst snd].
    eapply getPlugin_factory; [done|exact Hs| |exact Hf].
    unfold readingPredicate, bind, ret. fold sched. by rewrite Hrun.
  - unfold getPlugin. rewrite Hl. unfold bindNormal, bind, lift.
    destruct (splitStream (ptrReader r) (mem w))
      as [[[[c1 c2] [e|]]|msg] m1]; [done| |done].
    unfold call. by destruct c1.
Qed.

End config_flow.

(** ** The plugin registry, continued *)

Section registry_more.

Context {S Attributes ObjectInterfaces : Type}.
Context (Quote : string → string).

Abbreviation Factory5 := (@Factory S Attributes ObjectInterfaces).
Abbreviation Plugins5 := (@Plugins S Attributes ObjectInterfaces).

Implicit Types (ps : Plugins5) (name : string) (plugin : Factory5).

(** X12. A registration that returns adds exactly its name to the
    listing: the name was not listed before, and [Registered] afterwards
    is the earlier listing with the name inserted at its place in the
    order, one longer. *)
Theorem Register_extends_Registered ps name plugin ps' :
  Register Quote ps name plugin = Returns ps' →
  (name ∉ Registered ps) ∧
  Registered ps' = sort_Strings (name :: Registered ps) ∧
  Registered ps' ≡ₚ name :: Registered ps ∧
  length (Registered ps') = Datatypes.S (length (Registered ps)).
Proof.
  intros [Hnone Hl]%Register_Returns.
  assert (Hnot : name ∉ Registered ps).
  { rewrite Registered_elem, Hnone. by intros [? ?]. }
  assert (Hnd : NoDup (name :: Registered ps)).
  { apply NoDup_cons. split; [done|].
    apply StronglySorted_lt_le, Registered_sorted. }
  assert (Heq : Registered ps' = sort_Strings (name :: Registered ps)).
  { apply string_lt_sorted_unique.
    - apply Registered_sorted.
    - by apply sort_Strings_sorted.
    - intros k. rewrite sort_Strings_Permutation, elem_of_cons, !Registered_elem.
      rewrite Hl. destruct (decide (name = k)) as [->|Hne].
      + split; [by left|]. intros _. eauto.
      + split; [by right|]. by intros [->|?]. }
  split; [done|]. split; [done|].
  rewrite Heq, sort_Strings_Permutation. done.
Qed.

End registry_more.

(** ** Applying the recommended options *)

Section recommended_more.

Context {Config Initializer : Type}.

Abbreviation Options := (@RecommendedOptions Config Initializer).
Abbreviation Setup' := (@Setup Config Initializer).

Implicit Types (o : Options) (s : Setup').

Lemma lookup_removelast {A} (l : list A) i x :
  l !! i = Some x → Datatypes.S i < length l → removelast l !! i = Some x.
Proof.
  revert i. induction l as [|y [|z l] IH]; intros i Hi Hlt.
  - done.
  - simpl in Hlt. lia.
  - destruct i as [|i]; [exact Hi|]. apply (IH i Hi). simpl in *. lia.
Qed.

(** X13. [RecommendedOptions.ApplyTo] takes its steps in the order of
    the source and stops at the first error, which it returns: the steps
    taken are a non-empty initial part of that order, every step but the
    last returned nil, and the result is the last step's error, so nil
    is returned only after all nine steps.  [ExtraAdmissionInitializers]
    is called once, after the seven [ApplyTo] calls before it, and
    [Admission.ApplyTo] is called only if it returned no error, with
    exactly the initializers it returned. *)
Theorem ApplyTo_fail_fast o s :
  let res := ApplyTo o s in
  ∃ steps,
    applied res.2 = applied s ++ steps ∧
    step <$> steps = take (length steps) applyOrder ∧
    res.1 = (last steps ≫= stepError) ∧
    (∀ i st, steps !! i = Some st → Datatypes.S i < length steps →
             stepError st = None) ∧
    (res.1 = None → length steps = 9) ∧
    (∀ st, st ∈ steps → step st = AdmissionStep →
       ∃ extra, extra ∈ steps ∧
         step extra = ExtraAdmissionInitializersStep ∧
         stepError extra = None ∧
         initializers st = initializers extra).
Proof.
  intros res. subst res. unfold ApplyTo, orReturn, apply, bind, ret.
  assert (Hlookup : ∀ (steps : list (@Applied Initializer)) i st,
            steps !! i = Some st → Datatypes.S i < length steps →
            Forall (λ x, stepError x = None) (removelast steps) →
            stepError st = None).
  { intros steps i st Hi Hlt Hall.
    rewrite Forall_forall in Hall. apply Hall.
    apply list_elem_of_lookup. exists i. by apply lookup_removelast. }
  destruct (Etcd_ApplyTo o (config s)) as [[e|] c1]; cbn [config applied];
  [|destruct (SecureServing_ApplyTo o c1) as [[e|] c2]; cbn [config applied];
  [|destruct (Authentication_ApplyTo o c2) as [[e|] c3]; cbn [config applied];
  [|destruct (Authorization_ApplyTo o c3) as [[e|] c4]; cbn [config applied];
  [|destruct (Audit_ApplyTo o c4) as [[e|] c5]; cbn [config applied];
  [|destruct (Features_ApplyTo o c5) as [[e|] c6]; cbn [config applied];
  [|destruct (CoreAPI_ApplyTo o c6) as [[e|] c7]; cbn [config applied];
  [|destruct (ExtraAdmissionInitializers o c7) as [[inits [e|]] c8];
    cbn [config applied];
  [|destruct (Admission_ApplyTo o inits c8) as [[e|] c9]]]]]]]]];
  cbn [fst snd config applied];
  rewrite <- ?(assoc_L (++)); cbn [app];
  (eexists; split; [reflexivity|]);
  (split; [reflexivity|]); (split; [reflexivity|]);
  (split; [intros i st Hi Hlt; eapply Hlookup; [exact Hi|exact Hlt|];
           cbn [removelast]; repeat constructor|]);
  (split; [try discriminate; reflexivity|]);
  intros st Hin Hst;
  repeat (apply elem_of_cons in Hin as [->|Hin]; [try discriminate Hst|]);
  try (by apply elem_of_nil in Hin);
  (eexists (MkApplied ExtraAdmissionInitializersStep inits None);
   split; [rewrite !elem_of_cons; auto 20|done]).
Qed.

End recommended_more.

(** ** The further properties on the concrete instance *)

(** No member of the example chain handles Delete. *)
Lemma chain_unhandled_noop_witness :
  chainAdmissionHandler_Admit ex_GetOperation ex_chain Delete tt ex_world
    = (None, ex_world) ∧
  chainAdmissionHandler_Validate ex_GetOperation ex_chain Delete tt ex_world
    = (None, ex_world).
Proof.
  apply (chain_unhandled_noop ex_GetOperation ex_chain Delete tt ex_world).
  reflexivity.
Defined.

(** A registered name followed by an unknown one. *)
Lemma NewFromPlugins_composes_witness :
  mapOutcome snd
    (NewFromPlugins ex_Quote ex_enabled ex_Plugins (["mutator"] ++ ["nope"])
       ex_provider [ex_initializer] None ex_world).1
  = Normal (Some (errorString "unknown admission plugin: nope")).
Proof.
  assert (Hall : instantiated ex_Quote ex_enabled ex_Plugins ex_provider
            [ex_initializer] ["mutator"] ex_world [("mutator", Some ex_P1)]
            (MkWorld (MkMem ["factory"; "Initialize"] [] [])
               [ConfigForCall "mutator" (nilReader, None);
                PluginEnabledFnCall "mutator" nilReader true;
                FactoryCall "mutator" nilReader (Some ex_P1, None);
                InitializeCall 0 (Some ex_P1)])).
  { eapply instantiated_cons; [reflexivity|reflexivity|apply instantiated_nil]. }
  destruct (NewFromPlugins_composes ex_Quote ex_enabled ex_Plugins ex_provider
              [ex_initializer] None ["mutator"] ["nope"] _ _ _ Hall)
    as (Herr & _).
  etrans; [exact Herr|reflexivity].
Defined.

(** Two names with an empty one between them: one line for the empty
    name, then the report, and a chain of two. *)
Lemma NewFromPlugins_follows_names_witness :
  ∃ muts vals,
    filter (λ ev, isKlogInfo ev)
      (newCalls ex_world
         (NewFromPlugins ex_Quote ex_enabled ex_Plugins
            ["mutator"; ""; "mutator"] ex_provider [ex_initializer] None
            ex_world).2)
      = [klogInfo "No admission plugin specified."] ++ loadedLines muts vals ∧
    muts `sublist_of` ["mutator"; "mutator"] ∧
    vals `sublist_of` ["mutator"; "mutator"] ∧
    length muts ≤ 2 ∧ length vals ≤ 2.
Proof.
  destruct (NewFromPlugins_follows_names ex_Quote ex_enabled ex_Plugins
              ex_provider [ex_initializer] None ["mutator"; ""; "mutator"]
              ex_world [ex_P1; ex_P1] eq_refl)
    as (muts & vals & Hlog & Hmuts & Hvals & Hlm & Hlv & _).
  exists muts, vals. split; [exact Hlog|]. split; [exact Hmuts|].
  split; [exact Hvals|]. split; [exact Hlm|exact Hlv].
Defined.

(** The member of the chain built for one name was initialized. *)
Lemma NewFromPlugins_members_initialized_witness :
  InitializeCall 0 (Some ex_P1) ∈
    newCalls ex_world
      (NewFromPlugins ex_Quote ex_enabled ex_Plugins ["mutator"] ex_provider
         [ex_initializer] None ex_world).2.
Proof.
  assert (Hin : ex_P1 ∈ [ex_P1]) by (by left).
  assert (Hk : 0 < length [ex_initializer]) by (simpl; lia).
  exact (proj1 (NewFromPlugins_members_initialized ex_Quote ex_enabled
                  ex_Plugins ["mutator"] ex_provider [ex_initializer] ex_world
                  [ex_P1] eq_refl ex_P1 Hin) 0 Hk).
Defined.

(** After the split the stream of two bytes is used up. *)
Lemma splitStream_drains_input_witness :
  toRead 0 (splitStream (ptrReader 0) ex_mem_config).2 = [].
Proof.
  assert (Hlive : 0 < length (objs ex_mem_config)) by (simpl; lia).
  exact (proj1 (splitStream_drains_input 0 ex_mem_config Hlive I)).
Defined.

(** A predicate that reads one byte and then five: the factory's copy
    still holds both bytes. *)
Lemma factory_gets_whole_config_witness :
  ∃ r1 r2 (m2 : ex_Mem),
    r1 ≠ r2 ∧ okReader r2 m2 ∧ toRead r2 m2 = [Byte.x61; Byte.x62].
Proof.
  destruct (factory_gets_whole_config ex_Plugins "mutator" (ex_factory ex_P1)
              0 [1; 5] ex_world_config eq_refl I eq_refl)
    as ((r1 & r2 & m2 & Hne & Hok & Hto & _) & _).
  exists r1, r2, m2. split; [exact Hne|]. split; [exact Hok|exact Hto].
Defined.

(** One more name in the example registry. *)
Lemma Register_extends_Registered_witness :
  ∃ ps',
    Register ex_Quote ex_Plugins "zeta" ex_failing_factory = Returns ps' ∧
    length (Registered ps') = Datatypes.S (length (Registered ex_Plugins)).
Proof.
  eexists. split; [reflexivity|].
  eapply (Register_extends_Registered ex_Quote ex_Plugins "zeta"
            ex_failing_factory).
  reflexivity.
Defined.
